(** * Google-Scholar-Data-Retriever: the extraction engine of [generate_all.py]

    A shallow embedding of the field extractors ([extract_issn],
    [extract_isbn], [extract_page_numbers], [extract_issue],
    [extract_conference_name]) and of the record assembler
    ([scrape_scholar_data]), with the properties the specification states
    about them.

    Python strings are sequences of Unicode code points; the patterns of the
    source are [str] patterns, so [\d] and [\s] are the Unicode classes and
    the dashes of [[-–—]] are single characters. *)

From Stdlib Require Import ZArith NArith List String Ascii Lia Bool.
From stdpp Require Import gmap strings.
Import ListNotations.

Local Open Scope N_scope.

(** ** Text *)

Definition char := N.
Definition text := list char.

(** An ASCII literal as a text (one code point per character). *)
Definition T (s : string) : text :=
  List.map N_of_ascii (list_ascii_of_string s).

Definition chr_in (cs : list char) (c : char) : bool :=
  existsb (N.eqb c) cs.

Definition chr_is (a : ascii) (c : char) : bool := c =? N_of_ascii a.

(** The code points of the digit zero of every block of Unicode decimal
    digits (general category Nd, Unicode 14); each block is ten consecutive
    code points, zero to nine. *)
Definition nd_zeros : list char :=
  [ 0x30; 0x660; 0x6f0; 0x7c0; 0x966; 0x9e6; 0xa66; 0xae6; 0xb66; 0xbe6;
    0xc66; 0xce6; 0xd66; 0xde6; 0xe50; 0xed0; 0xf20; 0x1040; 0x1090; 0x17e0;
    0x1810; 0x1946; 0x19d0; 0x1a80; 0x1a90; 0x1b50; 0x1bb0; 0x1c40; 0x1c50;
    0xa620; 0xa8d0; 0xa900; 0xa9d0; 0xa9f0; 0xaa50; 0xabf0; 0xff10; 0x104a0;
    0x10d30; 0x11066; 0x110f0; 0x11136; 0x111d0; 0x112f0; 0x11450; 0x114d0;
    0x11650; 0x116c0; 0x11730; 0x118e0; 0x11950; 0x11c50; 0x11d50; 0x11da0;
    0x16a60; 0x16ac0; 0x16b50; 0x1d7ce; 0x1d7d8; 0x1d7e2; 0x1d7ec; 0x1d7f6;
    0x1e140; 0x1e2f0; 0x1e950; 0x1fbf0 ].

(** The value of a decimal digit, as [int] reads it. *)
Fixpoint decimal_in (zs : list char) (c : char) : option N :=
  match zs with
  | [] => None
  | z :: zs' => if (z <=? c) && (c <? z + 10) then Some (c - z)
                else decimal_in zs' c
  end.

Definition decimal_value (c : char) : option N := decimal_in nd_zeros c.

(** [\d] *)
Definition is_digit (c : char) : bool :=
  match decimal_value c with Some _ => true | None => false end.

(** [\s], which is also what [int] strips. *)
Definition is_space (c : char) : bool :=
  chr_in [ 0x9; 0xa; 0xb; 0xc; 0xd; 0x1c; 0x1d; 0x1e; 0x1f; 0x20; 0x85; 0xa0;
           0x1680; 0x2000; 0x2001; 0x2002; 0x2003; 0x2004; 0x2005; 0x2006;
           0x2007; 0x2008; 0x2009; 0x200a; 0x2028; 0x2029; 0x202f; 0x205f;
           0x3000 ] c.

(** [.]: any character but the newline. *)
Definition is_any (c : char) : bool := negb (c =? 0xa).

(** [[-–—]]: hyphen, en dash, em dash. *)
Definition is_dash (c : char) : bool := chr_in [0x2d; 0x2013; 0x2014] c.

(** [[-–—:]] *)
Definition is_dash_colon (c : char) : bool := is_dash c || (c =? 0x3a).

(** [[\d-]] *)
Definition is_digit_hyphen (c : char) : bool := is_digit c || (c =? 0x2d).

(** [[\s\(]] and [[\s\)]] *)
Definition is_space_lpar (c : char) : bool := is_space c || (c =? 0x28).
Definition is_space_rpar (c : char) : bool := is_space c || (c =? 0x29).

(** [[-\s]] *)
Definition is_hyphen_space (c : char) : bool := (c =? 0x2d) || is_space c.

(** ** [str(n)] and [int(s)] on integers *)

(** The decimal digits of [n], most significant first, pushed on [acc]. *)
Fixpoint digits_onto (fuel : nat) (n : N) (acc : text) : text :=
  match fuel with
  | O => acc
  | S fuel' =>
      let acc' := (0x30 + n mod 10) :: acc in
      if n / 10 =? 0 then acc' else digits_onto fuel' (n / 10) acc'
  end.

Definition digits_of (n : N) : text :=
  digits_onto (S (N.to_nat (N.size n))) n [].

(** [str(z)] for an [int]. *)
Definition py_str (z : Z) : text :=
  if (z <? 0)%Z then 0x2d :: digits_of (Z.to_N (- z)) else digits_of (Z.to_N z).

Fixpoint lstrip (s : text) : text :=
  match s with
  | c :: s' => if is_space c then lstrip s' else s
  | [] => []
  end.

(** [s.strip()] *)
Definition strip (s : text) : text := rev (lstrip (rev (lstrip s))).

(** The digits of an [int] literal: a digit, then digits each optionally
    preceded by one underscore. [seen] says that the previous character was
    a digit. *)
Fixpoint int_digits (acc : Z) (seen : bool) (s : text) : option Z :=
  match s with
  | [] => if seen then Some acc else None
  | c :: s' =>
      match decimal_value c with
      | Some d => int_digits (10 * acc + Z.of_N d)%Z true s'
      | None => if (c =? 0x5f) && seen then int_digits acc false s' else None
      end
  end.

(** [int(s)] for a [str]: [None] stands for [ValueError]. Surrounding
    whitespace is stripped, one sign is allowed. Integers are unbounded;
    the interpreter's cap on the number of digits of a literal is left
    out. *)
Definition py_int (s : text) : option Z :=
  match strip s with
  | c :: ds =>
      if c =? 0x2d then option_map Z.opp (int_digits 0 false ds)
      else if c =? 0x2b then int_digits 0 false ds
      else int_digits 0 false (c :: ds)
  | [] => None
  end.

(** ** Regular expressions

    The fragment of Python's [re] the patterns of the source use. A
    repetition is always over one character class ([\s*], [\d+],
    [[\d-]{13,17}], [.*?], [p?]); an optional group is an alternative with
    the empty pattern. *)

Inductive regex : Type :=
| Eps
| Chr (p : char -> bool)
| Seq (r1 r2 : regex)
| Alt (r1 r2 : regex)
| Rep (greedy : bool) (p : char -> bool) (lo : nat) (hi : option nat)
| Group (i : nat) (r : regex)
| NotAhead (r : regex)
| Eos.

(** The groups captured so far, the latest first. *)
Definition caps := list (nat * text).

Definition hi_open (hi : option nat) : bool :=
  match hi with Some O => false | _ => true end.

Definition hi_pred (hi : option nat) : option nat :=
  match hi with Some n => Some (Nat.pred n) | None => None end.

(** A repetition of the class [p], between [lo] and [hi] times, in
    backtracking order: a greedy one tries one more character before it
    tries to stop, a lazy one the other way round. *)
Fixpoint rep {R : Type} (greedy : bool) (p : char -> bool) (lo : nat)
    (hi : option nat) (s : text) (k : text -> option R) : option R :=
  match s with
  | c :: s' =>
      if p c && hi_open hi then
        match lo with
        | S lo' => rep greedy p lo' (hi_pred hi) s' k
        | O =>
            if greedy then
              match rep greedy p O (hi_pred hi) s' k with
              | Some r => Some r
              | None => k s
              end
            else
              match k s with
              | Some r => Some r
              | None => rep greedy p O (hi_pred hi) s' k
              end
        end
      else match lo with O => k s | S _ => None end
  | [] => match lo with O => k s | S _ => None end
  end.

(** The backtracking matcher, in continuation-passing style: [k] is the
    rest of the pattern. The first success in priority order wins. *)
Fixpoint mtch {R : Type} (r : regex) (s : text) (c : caps)
    (k : text -> caps -> option R) : option R :=
  match r with
  | Eps => k s c
  | Chr p =>
      match s with
      | x :: s' => if p x then k s' c else None
      | [] => None
      end
  | Seq r1 r2 => mtch r1 s c (fun s1 c1 => mtch r2 s1 c1 k)
  | Alt r1 r2 =>
      match mtch r1 s c k with
      | Some res => Some res
      | None => mtch r2 s c k
      end
  | Rep greedy p lo hi => rep greedy p lo hi s (fun s' => k s' c)
  | Group i r1 =>
      mtch r1 s c
        (fun s' c' => k s' ((i, take (length s - length s') s) :: c'))
  | NotAhead r1 =>
      match mtch r1 s c (fun _ _ => Some tt) with
      | Some _ => None
      | None => k s c
      end
  | Eos =>
      match s with
      | [] => k s c
      | [x] => if x =? 0xa then k s c else None
      | _ => None
      end
  end.

(** A match object: the groups of the leftmost match. *)
Definition re_match := caps.

(** [re.search(r, s)] *)
Fixpoint search (r : regex) (s : text) : option re_match :=
  match mtch r s [] (fun _ c => Some c) with
  | Some m => Some m
  | None =>
      match s with
      | [] => None
      | _ :: s' => search r s'
      end
  end.

(** [m.group(i)]; [None] stands for [IndexError] (no such group). In the
    patterns of the source every group takes part in every match. *)
Fixpoint group (m : re_match) (i : nat) : option text :=
  match m with
  | [] => None
  | (j, w) :: m' => if Nat.eqb i j then Some w else group m' i
  end.

(** Pattern syntax. *)
Definition cat (rs : list regex) : regex := fold_right Seq Eps rs.
Definition lit (s : string) : regex :=
  cat (List.map (fun a => Chr (chr_is a)) (list_ascii_of_string s)).
Definition star (p : char -> bool) : regex := Rep true p 0 None.
Definition plus (p : char -> bool) : regex := Rep true p 1 None.
Definition opt_chr (a : ascii) : regex := Rep true (chr_is a) 0 (Some 1%nat).
Definition times (p : char -> bool) (lo hi : nat) : regex :=
  Rep true p lo (Some hi).
Definition opt (r : regex) : regex := Alt r Eps.
Definition lazy_star (p : char -> bool) : regex := Rep false p 0 None.


(** ** Field extractors *)

(** The first group of a match of a pattern that has one. *)
Definition group1 (m : re_match) : text :=
  match group m 1 with Some g => g | None => [] end.

(** [\d{4}-\d{4}] *)
Definition issn_shape : regex :=
  cat [times is_digit 4 4; lit "-"; times is_digit 4 4].

Definition issn_patterns : list regex :=
  [ cat [lit "ISSN"; opt_chr ":"; star is_space; Group 1 issn_shape];
    cat [Chr is_space_lpar; Group 1 issn_shape; Chr is_space_rpar];
    cat [lit "eISSN"; opt_chr ":"; star is_space; Group 1 issn_shape];
    cat [lit "pISSN"; opt_chr ":"; star is_space; Group 1 issn_shape] ].

(** The loop of [extract_issn]: the first pattern that matches wins. *)
Fixpoint first_group1 (patterns : list regex) (bib_text : text) : text :=
  match patterns with
  | [] => []
  | pattern :: rest =>
      match search pattern bib_text with
      | Some m => group1 m
      | None => first_group1 rest bib_text
      end
  end.

Definition extract_issn (bib_text : text) : text :=
  first_group1 issn_patterns bib_text.

Definition isbn_patterns : list regex :=
  [ cat [lit "ISBN-13"; opt_chr ":"; star is_space;
         Group 1 (times is_digit_hyphen 17 17)];
    cat [lit "ISBN-10"; opt_chr ":"; star is_space;
         Group 1 (times is_digit_hyphen 13 13)];
    cat [lit "ISBN"; opt_chr ":"; star is_space;
         Group 1 (times is_digit_hyphen 13 17)];
    cat [Chr is_space_lpar;
         Group 1 (cat [lit "978"; times is_digit_hyphen 10 14]);
         Chr is_space_rpar];
    cat [Chr is_space_lpar; Group 1 (times is_digit_hyphen 10 13);
         Chr is_space_rpar] ].

(** [re.sub(r'[-\s]', '', g)] *)
Definition strip_separators (g : text) : text :=
  List.filter (fun c => negb (is_hyphen_space c)) g.

(** [len(isbn) in [10, 13]] *)
Definition isbn_length_ok (isbn : text) : bool :=
  Nat.eqb (length isbn) 10 || Nat.eqb (length isbn) 13.

(** The loop of [extract_isbn]. *)
Fixpoint isbn_loop (patterns : list regex) (bib_text : text) : text :=
  match patterns with
  | [] => []
  | pattern :: rest =>
      match search pattern bib_text with
      | Some m =>
          let isbn := strip_separators (group1 m) in
          if isbn_length_ok isbn then isbn else isbn_loop rest bib_text
      | None => isbn_loop rest bib_text
      end
  end.

Definition extract_isbn (bib_text : text) : text :=
  isbn_loop isbn_patterns bib_text.

(** The tail shared by the labelled range patterns:
    [\s*(\d+)\s*[-–—]\s*(\d+)]. *)
Definition range_tail : list regex :=
  [ star is_space; Group 1 (plus is_digit); star is_space; Chr is_dash;
    star is_space; Group 2 (plus is_digit) ].

(** [pp?\.?] *)
Definition pp_label : list regex := [lit "p"; opt_chr "p"; opt_chr "."].

(** The nine patterns of [extract_page_numbers], in the order of the
    source. *)
Definition page_patterns : list regex :=
  [ cat (pp_label ++ range_tail);
    cat ([lit "page"; opt_chr "s"] ++ range_tail);
    cat [Chr is_space_lpar; Group 1 (plus is_digit); star is_space;
         Chr is_dash; star is_space; Group 2 (plus is_digit);
         Chr is_space_rpar];
    cat ([lit "Article"; plus is_space; plus is_digit; opt_chr ",";
          plus is_space] ++ pp_label ++ range_tail);
    cat [Group 1 (plus is_digit); star is_space; Chr is_dash_colon;
         star is_space; Group 2 (plus is_digit)];
    cat (pp_label ++
         [star is_space; Group 1 (plus is_digit); NotAhead (Chr is_digit)]);
    cat [lit "page"; opt_chr "s"; star is_space; Group 1 (plus is_digit);
         NotAhead (Chr is_digit)];
    cat ([lit "Vol."; star is_space; plus is_digit; star is_space;
          Chr (chr_in (T ",:")); star is_space;
          opt (cat [lit "No."; star is_space; plus is_digit; star is_space;
                    Chr (chr_in (T ",:")); star is_space])] ++
         pp_label ++ range_tail);
    cat [Chr (chr_in (T "Pp")); lit "age"; opt_chr "s"; star is_space;
         Group 1 (plus is_digit); Chr (chr_in (T "Ee")); plus is_digit;
         star is_space; Chr is_dash; star is_space; Group 2 (plus is_digit);
         Chr (chr_in (T "Ee")); plus is_digit] ].

(** [l[:-2]] and [l[-2:]] *)
Definition all_but_last2 {A : Type} (l : list A) : list A :=
  take (length l - 2) l.
Definition last2 {A : Type} (l : list A) : list A :=
  drop (length l - 2) l.

Definition pages := (text * text * text)%type.

(** The [try] block of the first loop; [None] is a caught [ValueError] or
    [IndexError]. *)
Definition range_of_match (m : re_match) : option pages :=
  match group m 1, group m 2 with
  | Some g1, Some g2 =>
      match py_int g1, py_int g2 with
      | Some a, Some b =>
          let start_page := py_str a in
          let end_page := py_str b in
          match py_int end_page, py_int start_page with
          | Some e, Some s => Some (start_page, end_page, py_str (e - s + 1))
          | _, _ => None
          end
      | _, _ => None
      end
  | _, _ => None
  end.

(** The [try] block of the second loop. *)
Definition single_of_match (m : re_match) : option pages :=
  match group m 1 with
  | Some g1 =>
      match py_int g1 with
      | Some n => let page := py_str n in Some (page, page, T "1")
      | None => None
      end
  | None => None
  end.

(** A loop over patterns that returns at the first match whose [try] block
    succeeds and goes on to the next pattern otherwise. *)
Fixpoint first_parsed (build : re_match -> option pages)
    (patterns : list regex) (bib_text : text) : option pages :=
  match patterns with
  | [] => None
  | pattern :: rest =>
      match search pattern bib_text with
      | Some m =>
          match build m with
          | Some r => Some r
          | None => first_parsed build rest bib_text
          end
      | None => first_parsed build rest bib_text
      end
  end.

(** [re.findall(r'(\d+)', s)]: the maximal runs of digits, left to right.
    [run] is the run being read, reversed. *)
Fixpoint findall_digits (run : text) (s : text) : list text :=
  match s with
  | [] => match run with [] => [] | _ => [rev run] end
  | c :: s' =>
      if is_digit c then findall_digits (c :: run) s'
      else match run with
           | [] => findall_digits [] s'
           | _ => rev run :: findall_digits [] s'
           end
  end.

(** [1 <= page_num <= 9999 and not (1900 <= page_num <= 2100)] *)
Definition plausible_page (page_num : Z) : bool :=
  ((1 <=? page_num) && (page_num <=? 9999) &&
   negb ((1900 <=? page_num) && (page_num <=? 2100)))%Z.

(** The third loop of [extract_page_numbers], with the final
    [return '', '', '']. *)
Fixpoint fallback_page (numbers : list text) : pages :=
  match numbers with
  | [] => ([], [], [])
  | num :: rest =>
      match py_int num with
      | Some page_num =>
          if plausible_page page_num
          then (py_str page_num, py_str page_num, T "1")
          else fallback_page rest
      | None => fallback_page rest
      end
  end.

Definition extract_page_numbers (bib_text : text) : pages :=
  match first_parsed range_of_match (all_but_last2 page_patterns) bib_text with
  | Some r => r
  | None =>
      match first_parsed single_of_match (last2 page_patterns) bib_text with
      | Some r => r
      | None => fallback_page (findall_digits [] bib_text)
      end
  end.

(** [s.lower()] on the ASCII letters; the case tables of the other scripts
    are not reproduced, their letters are left as they are. *)
Definition lower_char (c : char) : char :=
  if (0x41 <=? c) && (c <=? 0x5a) then c + 32 else c.
Definition py_lower (s : text) : text := List.map lower_char s.

Definition issue_patterns : list regex :=
  [ cat [lit "issue"; star is_space; Group 1 (plus is_digit)];
    cat [lit "no."; star is_space; Group 1 (plus is_digit)];
    cat [lit "("; Group 1 (plus is_digit); lit ")"];
    cat [lit "#"; Group 1 (plus is_digit)] ].

Definition extract_issue (bib_text : text) : text :=
  first_group1 issue_patterns (py_lower bib_text).

(** The characters a lower-case ASCII letter of a pattern matches under
    [re.IGNORECASE]: itself, its capital, and for [i], [k] and [s] the
    letters Unicode folds onto them. *)
Definition nocase_is (a : ascii) (c : char) : bool :=
  let l := N_of_ascii a in
  (c =? l) || (c =? l - 32) ||
  ((l =? 0x69) && chr_in [0x130; 0x131] c) ||
  ((l =? 0x6b) && (c =? 0x212a)) ||
  ((l =? 0x73) && (c =? 0x17f)).

Definition lit_nocase (s : string) : regex :=
  cat (List.map (fun a => Chr (nocase_is a)) (list_ascii_of_string s)).

(** [.*?(indicator.*?)(20\d{2}|19\d{2}|[\.,]|$)] with [re.IGNORECASE] *)
Definition conference_pattern (indicator : string) : regex :=
  cat [ lazy_star is_any;
        Group 1 (cat [lit_nocase indicator; lazy_star is_any]);
        Group 2 (Alt (cat [lit "20"; times is_digit 2 2])
                (Alt (cat [lit "19"; times is_digit 2 2])
                (Alt (Chr (chr_in (T ".,"))) Eos))) ].

Definition conf_indicators : list string :=
  ["conference"; "conf"; "symposium"; "workshop"; "proceedings"]%string.

Fixpoint conference_loop (indicators : list string) (title : text) : text :=
  match indicators with
  | [] => []
  | indicator :: rest =>
      match search (conference_pattern indicator) title with
      | Some m => strip (group1 m)
      | None => conference_loop rest title
      end
  end.

(** ** Values of the source's dictionaries *)

(** The fields of the upstream records are strings or integers. *)
Inductive value : Type :=
| VStr (s : text)
| VInt (n : Z).

(** [str(v)] *)
Definition str_of (v : value) : text :=
  match v with
  | VStr s => s
  | VInt n => py_str n
  end.

(** The truth value of [v] in an [if]. *)
Definition truthy (v : value) : bool :=
  match v with
  | VStr [] => false
  | VStr _ => true
  | VInt n => negb (n =? 0)%Z
  end.

(** [d.get(key, '')] *)
Definition get (d : gmap string value) (key : string) : value :=
  default (VStr []) (d !! key).

Definition get_opt (field : option value) : value := default (VStr []) field.

Definition extract_conference_name (venue title : value) : value :=
  if truthy venue then venue
  else VStr (conference_loop conf_indicators (str_of title)).

(** A publication of the upstream source: the keys the assembler reads. *)
Record Pub : Type := {
  pub_bib : option (gmap string value);
  pub_num_citations : option value;
  pub_url : option value
}.

(** An author of the upstream source. *)
Record Author : Type := {
  author_publications : option (list Pub);
  author_hindex : option value;
  author_i10index : option value
}.

(** An output row: a [dict] literal, its keys in the order written. *)
Definition publication := list (string * value).

Fixpoint field (key : string) (d : publication) : option value :=
  match d with
  | [] => None
  | (k, v) :: d' => if String.eqb key k then Some v else field key d'
  end.

(** [filled_pub.get('bib', {})] *)
Definition bib_of (filled_pub : Pub) : gmap string value :=
  default ∅ (pub_bib filled_pub).

(** The corpus the page, ISSN and ISBN extractors read. *)
Definition full_text (bib : gmap string value) : text :=
  str_of (get bib "citation") ++ str_of (get bib "abstract") ++
  str_of (get bib "note") ++ str_of (get bib "volume") ++
  str_of (get bib "pages").

(** The argument of [extract_issue]. *)
Definition issue_text (bib : gmap string value) : text :=
  str_of (get bib "citation") ++ str_of (get bib "volume").

(** The body of the per-publication [try], from the [bib] lookup to the
    [publication] literal. *)
Definition build_publication (search_query : text) (author : Author)
    (filled_pub : Pub) : publication :=
  let bib := bib_of filled_pub in
  let '(start_page, end_page, page_count) :=
    extract_page_numbers (full_text bib) in
  let issue := extract_issue (issue_text bib) in
  let conference_name :=
    extract_conference_name (get bib "venue") (get bib "title") in
  let issn := extract_issn (full_text bib) in
  let isbn := extract_isbn (full_text bib) in
  [ ("Author Name", VStr search_query);
    ("Title", get bib "title");
    ("Academic year", get bib "pub_year");
    ("Year", get bib "pub_year");
    ("Name of Conference", conference_name);
    ("Name of Journal", get bib "journal");
    ("Volume", get bib "volume");
    ("Issue", VStr issue);
    ("Page start", VStr start_page);
    ("Page end", VStr end_page);
    ("Page count", VStr page_count);
    ("Cited by", get_opt (pub_num_citations filled_pub));
    ("DOI", get_opt (pub_url filled_pub));
    ("Date", get bib "pub_year");
    ("h index", get_opt (author_hindex author));
    ("i index", get_opt (author_i10index author));
    ("Publisher", get bib "publisher");
    ("ISSN", VStr issn);
    ("ISBN", VStr isbn) ]%string.

(** ** The record assembler

    [scrape_scholar_data] talks to the upstream source, sleeps and prints.
    The source and the clock are an interface over a world [W]; the
    assembler's own state is the world, the output list
    [publications_data] and the trace of what it printed and slept. *)

(** The exceptions [except Exception] catches. *)
Inductive exn : Type :=
| StopIteration
| KeyError
| OtherError (name : string).

Inductive result (A : Type) : Type :=
| Ok (a : A)
| Raised (e : exn).
Arguments Ok {A} a.
Arguments Raised {A} e.

(** The lines the assembler prints. *)
Inductive log_line : Type :=
| LAttempt (n max_retries : Z)
| LNoAuthor
| LProcessed (title : value)
| LPubError (e : exn)
| LAttemptError (n : Z) (e : exn)
| LWaiting (wait_time : Z)
| LMaxRetries.

Inductive event : Type :=
| Print (line : log_line)
| Sleep (seconds : Z)
| SleepUniform (lo hi : Z).

(** The upstream source ([scholarly]) and the clock. Every call may change
    the world; the calls to the source may raise. *)
Class Source (W : Type) : Type := {
  author_iter : Type;
  search_author : text -> W -> result author_iter * W;
  next_author : author_iter -> W -> result Author * W;
  fill_author : Author -> W -> result Author * W;
  fill_pub : Pub -> W -> result Pub * W;
  sleep : Z -> W -> W;
  sleep_uniform : Z -> Z -> W -> W
}.

Record state (W : Type) : Type := mkState {
  world : W;
  publications_data : list publication;
  trace : list event
}.
Arguments mkState {W} world publications_data trace.
Arguments world {W} s.
Arguments publications_data {W} s.
Arguments trace {W} s.

Section Assembler.

Context {W : Type} {src : Source W}.

(** A computation that may raise and that keeps what it did to the state
    when it raises. *)
Definition M (A : Type) : Type := state W -> result A * state W.

Definition ret {A : Type} (a : A) : M A := fun st => (Ok a, st).

Definition raise {A : Type} (e : exn) : M A := fun st => (Raised e, st).

Definition bind {A B : Type} (m : M A) (f : A -> M B) : M B :=
  fun st =>
    match m st with
    | (Ok a, st') => f a st'
    | (Raised e, st') => (Raised e, st')
    end.

(** [try: m  except <handles>: handler(e)] *)
Definition try_except {A : Type} (m : M A) (handles : exn -> bool)
    (handler : exn -> M A) : M A :=
  fun st =>
    match m st with
    | (Ok a, st') => (Ok a, st')
    | (Raised e, st') =>
        if handles e then handler e st' else (Raised e, st')
    end.

Definition emit (e : event) : M unit :=
  fun st =>
    (Ok tt, mkState (world st) (publications_data st) (trace st ++ [e])).

Definition print (line : log_line) : M unit := emit (Print line).

(** A call to the source. *)
Definition call {A : Type} (f : W -> result A * W) : M A :=
  fun st =>
    let '(r, w) := f (world st) in
    (r, mkState w (publications_data st) (trace st)).

(** [time.sleep(seconds)] *)
Definition time_sleep (seconds : Z) : M unit :=
  fun st =>
    (Ok tt, mkState (sleep seconds (world st)) (publications_data st)
                    (trace st ++ [Sleep seconds])).

(** [time.sleep(random.uniform(lo, hi))] *)
Definition sleep_random (lo hi : Z) : M unit :=
  fun st =>
    (Ok tt, mkState (sleep_uniform lo hi (world st)) (publications_data st)
                    (trace st ++ [SleepUniform lo hi])).

(** [publications_data.append(publication)] *)
Definition append (p : publication) : M unit :=
  fun st =>
    (Ok tt, mkState (world st) (publications_data st ++ [p]) (trace st)).

End Assembler.

Arguments M : clear implicits.

Notation "'do' x <- m ; k" := (bind m (fun x => k))
  (at level 10, x name, m at level 100, k at level 200).
Notation "'exec' m ; k" := (bind m (fun _ => k))
  (at level 10, m at level 100, k at level 200).

Section Scrape.

Context {W : Type} {src : Source W}.

Definition is_stop_iteration (e : exn) : bool :=
  match e with StopIteration => true | _ => false end.

Definition any_exception (e : exn) : bool := true.

(** The body of the inner [try] of the publication loop. *)
Definition process_publication (search_query : text) (author : Author)
    (pub : Pub) : M W unit :=
  do filled_pub <- call (fill_pub pub);
  exec append (build_publication search_query author filled_pub);
  exec print (LProcessed (get (bib_of filled_pub) "title"));
  sleep_random 2 5.

(** One round of the publication loop: an exception is printed and the
    loop goes on. *)
Definition publication_step (search_query : text) (author : Author)
    (pub : Pub) : M W unit :=
  try_except (process_publication search_query author pub) any_exception
    (fun e => print (LPubError e)).

(** [for i, pub in enumerate(author['publications'], 1): ...] *)
Fixpoint publication_loop (search_query : text) (author : Author)
    (pubs : list Pub) : M W unit :=
  match pubs with
  | [] => ret tt
  | pub :: rest =>
      exec publication_step search_query author pub;
      publication_loop search_query author rest
  end.

(** [author['publications']] *)
Definition publications_of (author : Author) : M W (list Pub) :=
  match author_publications author with
  | Some pubs => ret pubs
  | None => raise KeyError
  end.

(** The body of the outer [try]. It ends by [return publications_data]
    when no author is found and by [break] after the publication loop;
    both leave the retry loop. *)
Definition attempt_body (search_query : text) (attempt max_retries : Z)
    : M W unit :=
  exec print (LAttempt (attempt + 1) max_retries);
  do search_query_result <- call (search_author search_query);
  do found <- try_except
                (do author <- call (next_author search_query_result);
                 do author <- call (fill_author author);
                 ret (Some author))
                is_stop_iteration
                (fun _ => exec print LNoAuthor; ret None);
  match found with
  | None => ret tt
  | Some author =>
      do pubs <- publications_of author;
      publication_loop search_query author pubs
  end.

(** The outer [except Exception as e] block. *)
Definition attempt_failed (attempt max_retries : Z) (e : exn) : M W unit :=
  exec print (LAttemptError (attempt + 1) e);
  if (attempt <? max_retries - 1)%Z then
    let wait_time := ((attempt + 1) * 5)%Z in
    exec print (LWaiting wait_time);
    time_sleep wait_time
  else print LMaxRetries.

(** [for attempt in attempts: try: ... except Exception: ...] *)
Fixpoint retry_loop (search_query : text) (max_retries : Z)
    (attempts : list Z) : M W unit :=
  match attempts with
  | [] => ret tt
  | attempt :: rest =>
      fun st =>
        match attempt_body search_query attempt max_retries st with
        | (Ok _, st') => (Ok tt, st')
        | (Raised e, st') =>
            (exec attempt_failed attempt max_retries e;
             retry_loop search_query max_retries rest) st'
        end
  end.

(** [range(n)] *)
Definition range (n : Z) : list Z :=
  List.map Z.of_nat (seq 0 (Z.to_nat n)).

(** The state in which [scrape_scholar_data] starts:
    [publications_data = []]. *)
Definition init (w : W) : state W := mkState w [] [].

(** [scrape_scholar_data(search_query, max_retries)]: the value returned
    and the state it leaves. *)
Definition scrape_scholar_data (search_query : text) (max_retries : Z)
    (w : W) : result (list publication) * state W :=
  match retry_loop search_query max_retries (range max_retries) (init w) with
  | (Ok _, st) => (Ok (publications_data st), st)
  | (Raised e, st) => (Raised e, st)
  end.

(** [max_retries=3] *)
Definition default_max_retries : Z := 3.

End Scrape.

(** ** What a match is

    [Matches r w c c']: the pattern [r] can consume the word [w] and turn
    the groups [c] into [c']. Lookaheads and the end anchor consume
    nothing; what they look at is left out, the relation is an upper bound
    of what the matcher accepts. *)

Inductive Matches : regex -> text -> caps -> caps -> Prop :=
| MEps c : Matches Eps [] c c
| MChr p x c : p x = true -> Matches (Chr p) [x] c c
| MSeq r1 r2 w1 w2 c c1 c2 :
    Matches r1 w1 c c1 -> Matches r2 w2 c1 c2 ->
    Matches (Seq r1 r2) (w1 ++ w2) c c2
| MAltL r1 r2 w c c' : Matches r1 w c c' -> Matches (Alt r1 r2) w c c'
| MAltR r1 r2 w c c' : Matches r2 w c c' -> Matches (Alt r1 r2) w c c'
| MRep greedy p lo hi w c :
    Forall (fun x => p x = true) w ->
    (lo <= length w)%nat ->
    (forall h, hi = Some h -> (length w <= h)%nat) ->
    Matches (Rep greedy p lo hi) w c c
| MGroup i r w c c' : Matches r w c c' -> Matches (Group i r) w c ((i, w) :: c')
| MNotAhead r c : Matches (NotAhead r) [] c c
| MEos c : Matches Eos [] c c.

(** Every word of [r] is made of characters of the class [q]. *)
Fixpoint word_class (q : char -> bool) (r : regex) : Prop :=
  match r with
  | Eps | NotAhead _ | Eos => True
  | Chr p | Rep _ p _ _ => forall x, p x = true -> q x = true
  | Seq r1 r2 | Alt r1 r2 => word_class q r1 /\ word_class q r2
  | Group _ r1 => word_class q r1
  end.

(** Every group of [r] captures words of the class [q]. *)
Fixpoint groups_class (q : char -> bool) (r : regex) : Prop :=
  match r with
  | Eps | NotAhead _ | Eos | Chr _ | Rep _ _ _ _ => True
  | Seq r1 r2 | Alt r1 r2 => groups_class q r1 /\ groups_class q r2
  | Group _ r1 => word_class q r1 /\ groups_class q r1
  end.

Definition caps_class (q : char -> bool) (c : caps) : Prop :=
  Forall (fun ig => Forall (fun x => q x = true) (snd ig)) c.

(** ** Observations on a trace *)

(** The back-off sleeps, in seconds, in the order they happened. *)
Fixpoint backoffs (tr : list event) : list Z :=
  match tr with
  | [] => []
  | Sleep seconds :: tr' => seconds :: backoffs tr'
  | _ :: tr' => backoffs tr'
  end.

(** The attempts announced, in the order they were made. *)
Fixpoint attempts_made (tr : list event) : list Z :=
  match tr with
  | [] => []
  | Print (LAttempt n _) :: tr' => n :: attempts_made tr'
  | _ :: tr' => attempts_made tr'
  end.

(** What the publication loop may add to the trace: no back-off sleep and
    no new attempt. *)
Definition loop_event (e : event) : Prop :=
  match e with
  | Sleep _ | Print (LAttempt _ _) => False
  | _ => True
  end.

(** ** A simulated source

    The first [failures] calls of [search_author] raise; then the search
    yields [hit], or nothing. [fill] raises on a publication without a
    [bib] and returns the others as they are. *)

Record Mock : Type := mkMock {
  failures : nat;
  hit : option Author
}.

#[export] Instance mock_source : Source Mock := {
  author_iter := option Author;
  search_author _ w :=
    match failures w with
    | S n => (Raised (OtherError "ConnectionError"), mkMock n (hit w))
    | O => (Ok (hit w), w)
    end;
  next_author it w :=
    match it with
    | Some a => (Ok a, w)
    | None => (Raised StopIteration, w)
    end;
  fill_author a w := (Ok a, w);
  fill_pub p w :=
    match pub_bib p with
    | Some _ => (Ok p, w)
    | None => (Raised (OtherError "FetchError"), w)
    end;
  sleep _ w := w;
  sleep_uniform _ _ w := w
}.


(** A publication with the given [bib] and URL. *)
Definition mock_pub (bib : list (string * value)) (url : string) : Pub :=
  {| pub_bib := Some (list_to_map bib);
     pub_num_citations := Some (VInt 12);
     pub_url := Some (VStr (T url)) |}.

(** A publication whose fetch fails. *)
Definition broken_pub : Pub :=
  {| pub_bib := None; pub_num_citations := None; pub_url := None |}.

Definition mock_author (pubs : list Pub) : Author :=
  {| author_publications := Some pubs;
     author_hindex := Some (VInt 7);
     author_i10index := Some (VInt 3) |}.

(** A run of the simulated source: the search fails twice, then yields an
    author with three publications, the second of which cannot be
    fetched. *)
Definition demo_query : text := T "Ada Lovelace".

Definition demo_pub : Pub :=
  mock_pub
    [ ("title", VStr (T "Notes on the Analytical Engine"));
      ("pub_year", VInt 1843);
      ("citation", VStr (T "Scientific Memoirs 3, pp. 666-731"));
      ("abstract", VStr (T "Reprinted in issue 7."));
      ("volume", VInt 3) ]%string
    "https://example.org/notes".

Definition demo_author : Author :=
  mock_author [demo_pub; broken_pub; demo_pub].

Definition demo_world : Mock := mkMock 2 (Some demo_author).

Definition demo_row : publication :=
  build_publication demo_query demo_author demo_pub.

(** A row the assembler built: the [publication] literal for some filled
    publication the source returned. *)
Definition built {W : Type} {src : Source W} (search_query : text)
    (row : publication) : Prop :=
  exists (author : Author) (pub filled_pub : Pub) (w w' : W),
    fill_pub pub w = (Ok filled_pub, w') /\
    row = build_publication search_query author filled_pub.

(** The ten ASCII digits, which are all [str] writes. *)
Definition ascii_digit (c : char) : Prop := 0x30 <= c <= 0x39.

(** What the fallback takes for a page: between 1 and 9999 and not a
    year between 1900 and 2100. *)
Definition page_like (n : Z) : Prop :=
  (1 <= n <= 9999)%Z /\ ~ (1900 <= n <= 2100)%Z.

(** The patterns the source lists as range patterns, by position: the
    four labelled or bounded ranges, the bare range, the volume-qualified
    range and the Elsevier range. *)
Definition range_patterns : list regex :=
  take 5 page_patterns ++ drop 7 page_patterns.

(** The patterns the source lists under "Single page number". *)
Definition single_page_patterns : list regex :=
  take 2 (drop 5 page_patterns).

(** ** The export *)




(** The keys of the [publication] literal, in the order written: the
    columns of the sheet. *)
Definition column_names : list string :=
  [ "Author Name"; "Title"; "Academic year"; "Year"; "Name of Conference";
    "Name of Journal"; "Volume"; "Issue"; "Page start"; "Page end";
    "Page count"; "Cited by"; "DOI"; "Date"; "h index"; "i index";
    "Publisher"; "ISSN"; "ISBN" ]%string.

(** The pauses taken after processed publications. *)
Fixpoint polite_sleeps (tr : list event) : nat :=
  match tr with
  | [] => 0
  | SleepUniform _ _ :: tr' => S (polite_sleeps tr')
  | _ :: tr' => polite_sleeps tr'
  end.

(** ** Words and their places *)

(** [g] is a run of consecutive characters of [s]. *)
Definition occurs_in (g s : text) : Prop :=
  exists pre post, s = pre ++ g ++ post.

(** Four digits, a hyphen, four digits. *)
Definition issn_shaped (g : text) : Prop :=
  exists d1 d2 : text,
    g = d1 ++ 0x2d :: d2 /\ length d1 = 4%nat /\ length d2 = 4%nat /\
    Forall (fun x => is_digit x = true) d1 /\
    Forall (fun x => is_digit x = true) d2.

(** A pattern without lookahead and without end anchor: for these
    [Matches] is exact. *)
Fixpoint plain (r : regex) : Prop :=
  match r with
  | Eps | Chr _ | Rep _ _ _ _ => True
  | Seq r1 r2 | Alt r1 r2 => plain r1 /\ plain r2
  | Group _ r1 => plain r1
  | NotAhead _ | Eos => False
  end.

(** The characters that end a conference name, and the newline, which
    [.] does not match. *)
Definition name_char (x : char) : bool := negb (chr_in [0x2e; 0x2c; 0xa] x).

(** [w] is the word [indicator], each letter in either case. *)
Definition spelled (indicator : string) (w : text) : Prop :=
  Forall2 (fun a x => nocase_is a x = true)
          (list_ascii_of_string indicator) w.

(** The second group of the conference pattern: a year, a period or a
    comma, or the end. *)
Definition conference_end : regex :=
  Group 2 (Alt (cat [lit "20"; times is_digit 2 2])
          (Alt (cat [lit "19"; times is_digit 2 2])
          (Alt (Chr (chr_in (T ".,"))) Eos))).

(** A pattern without groups. *)
Fixpoint groupless (r : regex) : Prop :=
  match r with
  | Eps | Chr _ | Rep _ _ _ _ | NotAhead _ | Eos => True
  | Seq r1 r2 | Alt r1 r2 => groupless r1 /\ groupless r2
  | Group _ _ => False
  end.

(** A lower-case ASCII letter. *)
Definition lower_letter (a : ascii) : Prop :=
  0x61 <= N_of_ascii a <= 0x7a.

(** [s.rstrip()] *)
Definition rstrip (s : text) : text := rev (lstrip (rev s)).

(** * Properties *)

(** ** The matcher accepts only matches *)

Lemma rep_sound {R : Type} greedy p (k : text -> option R) res :
  forall s lo hi,
    rep greedy p lo hi s k = Some res ->
    exists w s', s = w ++ s' /\ Forall (fun x => p x = true) w /\
                 (lo <= length w)%nat /\
                 (forall h, hi = Some h -> (length w <= h)%nat) /\
                 k s' = Some res.
Proof.
  assert (Hstop : forall s, k s = Some res ->
            forall hi, exists w s', s = w ++ s' /\
              Forall (fun x => p x = true) w /\ (0 <= length w)%nat /\
              (forall h, hi = Some h -> (length w <= h)%nat) /\
              k s' = Some res).
  { intros s Hk hi. exists [], s. repeat split; auto.
    intros h _. simpl. lia. }
  assert (Hmore : forall c s lo' hi,
            p c && hi_open hi = true ->
            (exists w s', s = w ++ s' /\ Forall (fun x => p x = true) w /\
               (lo' <= length w)%nat /\
               (forall h, hi_pred hi = Some h -> (length w <= h)%nat) /\
               k s' = Some res) ->
            forall lo, (lo <= S lo')%nat ->
            exists w s', c :: s = w ++ s' /\
               Forall (fun x => p x = true) w /\ (lo <= length w)%nat /\
               (forall h, hi = Some h -> (length w <= h)%nat) /\
               k s' = Some res).
  { intros c s lo' hi Hc (w & s' & -> & Hw & Hlo & Hhi & Hk) lo Hle.
    apply andb_prop in Hc as [Hp Hopen].
    exists (c :: w), s'. repeat split; auto.
    - simpl. lia.
    - intros h ->. simpl in *. destruct h as [|h]; [discriminate|].
      specialize (Hhi h eq_refl). lia. }
  induction s as [|c s IH]; intros lo hi H; simpl in H.
  - destruct lo; [|discriminate]. apply Hstop. assumption.
  - destruct (p c && hi_open hi) eqn:Hc.
    + destruct lo as [|lo'].
      * destruct greedy.
        -- destruct (rep true p 0 (hi_pred hi) s k) eqn:Hr.
           ++ inversion H; subst. eapply Hmore; eauto.
           ++ apply Hstop. assumption.
        -- destruct (k (c :: s)) eqn:Hk.
           ++ inversion H; subst. apply Hstop. assumption.
           ++ eapply Hmore; eauto.
      * eapply Hmore; eauto.
    + destruct lo; [|discriminate]. apply Hstop. assumption.
Qed.

Lemma mtch_sound (r : regex) :
  forall {R : Type} s c (k : text -> caps -> option R) res,
    mtch r s c k = Some res ->
    exists w s' c', s = w ++ s' /\ Matches r w c c' /\ k s' c' = Some res.
Proof.
  induction r as [|p|r1 IH1 r2 IH2|r1 IH1 r2 IH2|greedy p lo hi|i r IH|r IH|];
    intros R s c k res H; simpl in H.
  - exists [], s, c. repeat split; auto. constructor.
  - destruct s as [|x s]; [discriminate|].
    destruct (p x) eqn:Hp; [|discriminate].
    exists [x], s, c. repeat split; auto. constructor. assumption.
  - apply IH1 in H as (w1 & s1 & c1 & -> & M1 & H).
    apply IH2 in H as (w2 & s2 & c2 & -> & M2 & H).
    exists (w1 ++ w2), s2, c2. rewrite <- app_assoc.
    repeat split; auto. econstructor; eassumption.
  - destruct (mtch r1 s c k) eqn:H1.
    + inversion H; subst. apply IH1 in H1 as (w & s' & c' & -> & M & Hk).
      exists w, s', c'. repeat split; auto. apply MAltL. assumption.
    + apply IH2 in H as (w & s' & c' & -> & M & Hk).
      exists w, s', c'. repeat split; auto. apply MAltR. assumption.
  - apply rep_sound in H as (w & s' & -> & Hw & Hlo & Hhi & Hk).
    exists w, s', c. repeat split; auto. constructor; assumption.
  - apply IH in H as (w & s' & c' & -> & M & Hk).
    exists w, s', ((i, w) :: c'). repeat split; auto.
    + constructor. assumption.
    + rewrite length_app in Hk.
      replace (length w + length s' - length s')%nat with (length w) in Hk
        by lia.
      rewrite take_app_length in Hk. assumption.
  - destruct (mtch r s c (fun _ _ => Some tt)); [discriminate|].
    exists [], s, c. repeat split; auto. constructor.
  - exists [], s, c. repeat split; auto; [constructor|].
    destruct s as [|x [|y s]]; auto; [|discriminate].
    destruct (x =? 10); [assumption|discriminate].
Qed.

Lemma search_sound (r : regex) :
  forall s m, search r s = Some m -> exists w, Matches r w [] m.
Proof.
  induction s as [|x s IH]; intros m H; simpl in H.
  - destruct (mtch r [] [] (fun _ c => Some c)) eqn:Hm; [|discriminate].
    inversion H; subst.
    apply mtch_sound in Hm as (w & s' & c' & _ & M & Hk).
    inversion Hk; subst. eauto.
  - destruct (mtch r (x :: s) [] (fun _ c => Some c)) eqn:Hm.
    + inversion H; subst.
      apply mtch_sound in Hm as (w & s' & c' & _ & M & Hk).
      inversion Hk; subst. eauto.
    + auto.
Qed.

Lemma matches_word_class q r w c c' :
  Matches r w c c' -> word_class q r -> Forall (fun x => q x = true) w.
Proof.
  induction 1 as [c|p x c Hp|r1 r2 w1 w2 c c1 c2 _ IH1 _ IH2
                  |r1 r2 w c c' _ IH|r1 r2 w c c' _ IH
                  |greedy p lo hi w c Hw _ _|i r w c c' _ IH|r c|c];
    simpl; intros Hq; try solve [constructor].
  - constructor; [auto|constructor].
  - destruct Hq. apply Forall_app. auto.
  - destruct Hq. auto.
  - destruct Hq. auto.
  - induction Hw; constructor; auto.
  - auto.
Qed.

Lemma matches_caps_class q r w c c' :
  Matches r w c c' -> groups_class q r -> caps_class q c -> caps_class q c'.
Proof.
  unfold caps_class.
  induction 1 as [c|p x c Hp|r1 r2 w1 w2 c c1 c2 _ IH1 _ IH2
                  |r1 r2 w c c' _ IH|r1 r2 w c c' _ IH
                  |greedy p lo hi w c Hw _ _|i r w c c' M IH|r c|c];
    simpl; intros Hq Hc; auto.
  - destruct Hq. auto.
  - destruct Hq. auto.
  - destruct Hq. auto.
  - destruct Hq as [Hw Hg]. constructor; auto.
    simpl. eapply matches_word_class; eassumption.
Qed.

Lemma group_caps_class q m i g :
  caps_class q m -> group m i = Some g -> Forall (fun x => q x = true) g.
Proof.
  unfold caps_class. induction 1 as [|[j w] m Hw Hm IH]; simpl; intros H.
  - discriminate.
  - destruct (Nat.eqb i j).
    + inversion H; subst. assumption.
    + auto.
Qed.

(** The groups of a match of [r] are words of the class its groups have. *)
Lemma search_group_class q r s m i g :
  groups_class q r -> search r s = Some m -> group m i = Some g ->
  Forall (fun x => q x = true) g.
Proof.
  intros Hq Hs Hg. apply search_sound in Hs as [w M].
  eapply group_caps_class; [|eassumption].
  eapply matches_caps_class; [eassumption|assumption|constructor].
Qed.

(** ** The ISBN extractor *)

Lemma chr_is_class q a :
  q (N_of_ascii a) = true -> forall x, chr_is a x = true -> q x = true.
Proof.
  unfold chr_is. intros Hq x Hx. apply N.eqb_eq in Hx. subst. assumption.
Qed.

Lemma isbn_patterns_class :
  Forall (groups_class is_digit_hyphen) isbn_patterns.
Proof.
  repeat constructor; simpl; auto;
    try (apply chr_is_class; reflexivity).
Qed.

Lemma strip_separators_digits g :
  Forall (fun x => is_digit_hyphen x = true) g ->
  Forall (fun x => is_digit x = true) (strip_separators g).
Proof.
  unfold strip_separators.
  induction 1 as [|x g Hx _ IH]; simpl; [constructor|].
  destruct (is_hyphen_space x) eqn:Hs; simpl; [assumption|].
  constructor; [|assumption].
  unfold is_digit_hyphen in Hx. unfold is_hyphen_space in Hs.
  apply orb_false_elim in Hs as [Hh _]. rewrite Hh in Hx.
  rewrite orb_false_r in Hx. assumption.
Qed.

Lemma isbn_length_ok_spec isbn :
  isbn_length_ok isbn = true <-> length isbn = 10%nat \/ length isbn = 13%nat.
Proof.
  unfold isbn_length_ok. rewrite orb_true_iff, !Nat.eqb_eq. tauto.
Qed.

Lemma isbn_loop_shape bib_text :
  forall patterns,
    Forall (groups_class is_digit_hyphen) patterns ->
    isbn_loop patterns bib_text = [] \/
    (Forall (fun x => is_digit x = true) (isbn_loop patterns bib_text) /\
     isbn_length_ok (isbn_loop patterns bib_text) = true).
Proof.
  induction 1 as [|pattern rest Hp _ IH]; simpl; [left; reflexivity|].
  destruct (search pattern bib_text) as [m|] eqn:Hs; [|exact IH].
  destruct (isbn_length_ok (strip_separators (group1 m))) eqn:Hl; [|exact IH].
  right. split; [|assumption].
  apply strip_separators_digits. unfold group1.
  destruct (group m 1) as [g|] eqn:Hg; [|constructor].
  eapply search_group_class; eassumption.
Qed.

(** C6. [extract_isbn] returns the empty string or 10 or 13 digits, and a
    candidate of another length, once its hyphens and spaces are removed,
    is dropped: the loop goes on with the next pattern. *)
Theorem extract_isbn_digits_or_empty :
  forall bib_text : text,
    (extract_isbn bib_text = [] \/
     (Forall (fun x => is_digit x = true) (extract_isbn bib_text) /\
      (length (extract_isbn bib_text) = 10%nat \/
       length (extract_isbn bib_text) = 13%nat))) /\
    (forall pattern rest m,
        search pattern bib_text = Some m ->
        length (strip_separators (group1 m)) <> 10%nat ->
        length (strip_separators (group1 m)) <> 13%nat ->
        isbn_loop (pattern :: rest) bib_text = isbn_loop rest bib_text).
Proof.
  intros bib_text. split.
  - destruct (isbn_loop_shape bib_text isbn_patterns isbn_patterns_class)
      as [H|[Hd Hl]]; [left; exact H|right].
    split; [exact Hd|]. apply isbn_length_ok_spec. exact Hl.
  - intros pattern rest m Hs H10 H13. simpl. rewrite Hs.
    destruct (isbn_length_ok (strip_separators (group1 m))) eqn:Hl;
      [|reflexivity].
    apply isbn_length_ok_spec in Hl. tauto.
Qed.

(** The labelled candidate has 15 digits and is dropped; the bare one in
    parentheses is taken. *)
Lemma extract_isbn_digits_or_empty_witness :
  let bib_text := T "ISBN: 123456789012345 (0-123-45678-9)" in
  isbn_loop (drop 2 isbn_patterns) bib_text =
    isbn_loop (drop 3 isbn_patterns) bib_text /\
  extract_isbn bib_text = T "0123456789".
Proof.
  intros bib_text. split; [|vm_compute; reflexivity].
  refine (proj2 (extract_isbn_digits_or_empty bib_text) _ _
            [(1%nat, T "123456789012345")] _ _ _).
  - vm_compute. reflexivity.
  - vm_compute. discriminate.
  - vm_compute. discriminate.
Defined.

(** ** [int] reads back what [str] writes *)

Lemma ascii_digit_cases c :
  ascii_digit c ->
  c = 48 \/ c = 49 \/ c = 50 \/ c = 51 \/ c = 52 \/
  c = 53 \/ c = 54 \/ c = 55 \/ c = 56 \/ c = 57.
Proof. unfold ascii_digit. lia. Qed.

Lemma ascii_digit_value c :
  ascii_digit c -> decimal_value c = Some (c - 48).
Proof.
  intros H. apply ascii_digit_cases in H.
  repeat (destruct H as [->|H]; [reflexivity|]). subst. reflexivity.
Qed.

Lemma ascii_digit_not_space c : ascii_digit c -> is_space c = false.
Proof.
  intros H. apply ascii_digit_cases in H.
  repeat (destruct H as [->|H]; [reflexivity|]). subst. reflexivity.
Qed.

Lemma ascii_digit_mod n : ascii_digit (48 + n mod 10).
Proof.
  unfold ascii_digit.
  assert (H : n mod 10 < 10) by (apply N.mod_upper_bound; discriminate).
  revert H. generalize (n mod 10). intros d H. lia.
Qed.

Lemma digits_onto_ascii fuel :
  forall n acc,
    Forall ascii_digit acc -> Forall ascii_digit (digits_onto fuel n acc).
Proof.
  induction fuel as [|fuel IH]; intros n acc Hacc; simpl; [assumption|].
  assert (Forall ascii_digit ((48 + n mod 10) :: acc))
    by (constructor; [apply ascii_digit_mod|assumption]).
  destruct (n / 10 =? 0); auto.
Qed.

Lemma digits_onto_cons fuel :
  forall n c acc, exists c' ds, digits_onto fuel n (c :: acc) = c' :: ds.
Proof.
  induction fuel as [|fuel IH]; intros n c acc; simpl; [eauto|].
  destruct (n / 10 =? 0); eauto.
Qed.

Lemma int_digits_onto fuel :
  forall n acc,
    n < 2 ^ N.of_nat fuel ->
    int_digits 0 false (digits_onto (S fuel) n acc) =
    int_digits (Z.of_N n) true acc.
Proof.
  assert (Hstep : forall n acc a seen,
            int_digits a seen ((48 + n mod 10) :: acc) =
            int_digits (10 * a + Z.of_N (n mod 10)) true acc).
  { intros n acc a seen. generalize (ascii_digit_mod n).
    generalize (n mod 10). intros d Hd. cbn [int_digits].
    rewrite (ascii_digit_value _ Hd).
    replace (48 + d - 48) with d by lia. reflexivity. }
  assert (Hdm : forall n, n / 10 = 0 -> n mod 10 = n).
  { intros n Hq. pose proof (N.div_mod n 10) as H. rewrite Hq in H.
    revert H. generalize (n mod 10). intros d H. lia. }
  assert (Hdm' : forall n,
            (10 * Z.of_N (n / 10) + Z.of_N (n mod 10))%Z = Z.of_N n).
  { intros n. pose proof (N.div_mod n 10) as H.
    revert H. generalize (n mod 10), (n / 10). intros d q H. lia. }
  induction fuel as [|fuel IH]; intros n acc Hn.
  - simpl in Hn. assert (n = 0) by lia. subst. reflexivity.
  - change (digits_onto (S (S fuel)) n acc)
      with (if n / 10 =? 0 then (48 + n mod 10) :: acc
            else digits_onto (S fuel) (n / 10) ((48 + n mod 10) :: acc)).
    destruct (n / 10 =? 0) eqn:Hq.
    + rewrite Hstep. apply N.eqb_eq in Hq.
      rewrite (Hdm n Hq). f_equal.
    + rewrite IH.
      * rewrite Hstep, Hdm'. reflexivity.
      * rewrite Nat2N.inj_succ, N.pow_succ_r' in Hn.
        apply N.Div0.div_lt_upper_bound.
        revert Hn. generalize (2 ^ N.of_nat fuel). intros b Hn. lia.
Qed.

Lemma lstrip_id c s : is_space c = false -> lstrip (c :: s) = c :: s.
Proof. intros H. simpl. rewrite H. reflexivity. Qed.

Lemma strip_id s : Forall (fun c => is_space c = false) s -> strip s = s.
Proof.
  intros H. unfold strip.
  assert (Hl : forall l,
             Forall (fun c => is_space c = false) l -> lstrip l = l).
  { intros l Hf. destruct Hf; [reflexivity|]. apply lstrip_id. assumption. }
  rewrite (Hl s H). rewrite Hl.
  - apply rev_involutive.
  - apply List.Forall_rev. assumption.
Qed.

Lemma py_int_digits_of n : py_int (digits_of n) = Some (Z.of_N n).
Proof.
  assert (Ha : Forall ascii_digit (digits_of n))
    by (apply digits_onto_ascii; constructor).
  assert (Hv : int_digits 0 false (digits_of n) = Some (Z.of_N n)).
  { unfold digits_of. rewrite int_digits_onto; [reflexivity|].
    rewrite N2Nat.id. apply N.size_gt. }
  unfold py_int. rewrite strip_id.
  - destruct (digits_of n) as [|c ds] eqn:Hd; [discriminate|].
    inversion Ha as [|? ? Hc _]; subst. unfold ascii_digit in Hc.
    destruct (c =? 45) eqn:H45; [apply N.eqb_eq in H45; lia|].
    destruct (c =? 43) eqn:H43; [apply N.eqb_eq in H43; lia|].
    assumption.
  - eapply Forall_impl; [eassumption|]. apply ascii_digit_not_space.
Qed.

(** [int(str(z)) == z] *)
Lemma py_int_py_str z : py_int (py_str z) = Some z.
Proof.
  unfold py_str. destruct (z <? 0)%Z eqn:Hz.
  - apply Z.ltb_lt in Hz.
    pose proof (py_int_digits_of (Z.to_N (- z))) as H.
    assert (Ha : Forall ascii_digit (digits_of (Z.to_N (- z))))
      by (apply digits_onto_ascii; constructor).
    unfold py_int in *. rewrite strip_id in H.
    + rewrite strip_id.
      * destruct (digits_of (Z.to_N (- z))) as [|c ds] eqn:Hd;
          [discriminate|].
        inversion Ha as [|? ? Hc _]; subst. unfold ascii_digit in Hc.
        destruct (c =? 45) eqn:H45; [apply N.eqb_eq in H45; lia|].
        destruct (c =? 43) eqn:H43; [apply N.eqb_eq in H43; lia|].
        change (45 =? 45) with true. cbv iota. rewrite H. simpl.
        f_equal. lia.
      * constructor; [reflexivity|].
        eapply Forall_impl; [eassumption|]. apply ascii_digit_not_space.
    + eapply Forall_impl; [eassumption|]. apply ascii_digit_not_space.
  - apply Z.ltb_ge in Hz. rewrite py_int_digits_of. f_equal. lia.
Qed.

(** ** The page extractor *)

(** Settles a goal about every pattern of a list by evaluating it on each. *)
Ltac each_pattern Hin :=
  repeat (destruct Hin as [<-|Hin]; [vm_compute; reflexivity|]);
  destruct Hin.

Lemma first_parsed_some build bib_text r :
  forall patterns,
    first_parsed build patterns bib_text = Some r ->
    exists pattern m,
      In pattern patterns /\ search pattern bib_text = Some m /\
      build m = Some r.
Proof.
  induction patterns as [|pattern rest IH]; simpl; intros H; [discriminate|].
  destruct (search pattern bib_text) as [m|] eqn:Hs.
  - destruct (build m) as [r'|] eqn:Hb.
    + inversion H; subst. exists pattern, m. auto.
    + destruct (IH H) as (p & m' & Hin & Hs' & Hb'). exists p, m'. auto.
  - destruct (IH H) as (p & m' & Hin & Hs' & Hb'). exists p, m'. auto.
Qed.


Lemma range_of_match_shape m r :
  range_of_match m = Some r ->
  exists a b : Z, r = (py_str a, py_str b, py_str (b - a + 1)).
Proof.
  unfold range_of_match.
  destruct (group m 1) as [g1|]; [|discriminate].
  destruct (group m 2) as [g2|]; [|discriminate].
  destruct (py_int g1) as [a|]; [|discriminate].
  destruct (py_int g2) as [b|]; [|discriminate].
  rewrite !py_int_py_str. intros H. inversion H. eauto.
Qed.

Lemma single_of_match_shape m r :
  single_of_match m = Some r ->
  exists n : Z, r = (py_str n, py_str n, py_str 1).
Proof.
  unfold single_of_match.
  destruct (group m 1) as [g1|]; [|discriminate].
  destruct (py_int g1) as [n|]; [|discriminate].
  intros H. inversion H. eauto.
Qed.

Lemma fallback_page_shape numbers :
  fallback_page numbers = ([], [], []) \/
  exists n : Z, fallback_page numbers = (py_str n, py_str n, py_str 1).
Proof.
  induction numbers as [|num rest IH]; simpl; [left; reflexivity|].
  destruct (py_int num) as [n|]; [|exact IH].
  destruct (plausible_page n); [|exact IH].
  right. exists n. reflexivity.
Qed.

(** Whatever [extract_page_numbers] returns is the empty triple or the
    decimal writing of two integers and of their distance plus one. *)
Lemma extract_page_numbers_shape bib_text :
  extract_page_numbers bib_text = ([], [], []) \/
  exists a b : Z,
    extract_page_numbers bib_text = (py_str a, py_str b, py_str (b - a + 1)).
Proof.
  unfold extract_page_numbers.
  destruct (first_parsed range_of_match _ bib_text) as [r|] eqn:H1.
  - apply first_parsed_some in H1 as (p & m & _ & _ & Hb).
    apply range_of_match_shape in Hb as (a & b & ->). right. eauto.
  - destruct (first_parsed single_of_match _ bib_text) as [r|] eqn:H2.
    + apply first_parsed_some in H2 as (p & m & _ & _ & Hb).
      apply single_of_match_shape in Hb as (n & ->).
      right. exists n, n. replace (n - n + 1)%Z with 1%Z by lia. reflexivity.
    + destruct (fallback_page_shape (findall_digits [] bib_text))
        as [H|[n H]]; [left; exact H|right].
      exists n, n. replace (n - n + 1)%Z with 1%Z by lia. exact H.
Qed.

(** C3. A page count that is not empty is [end - start + 1], and the
    start and end returned are written without leading zeros: they are
    what [str] gives for the integers they read as. *)
Theorem page_count_invariant :
  (forall bib_text start_page end_page page_count,
      extract_page_numbers bib_text = (start_page, end_page, page_count) ->
      page_count <> [] ->
      exists a b : Z,
        py_int start_page = Some a /\ py_int end_page = Some b /\
        start_page = py_str a /\ end_page = py_str b /\
        page_count = py_str (b - a + 1)) /\
  extract_page_numbers (T "pp. 007-010") = (T "7", T "10", T "4").
Proof.
  split; [|vm_compute; reflexivity].
  intros bib_text start_page end_page page_count H Hne.
  destruct (extract_page_numbers_shape bib_text) as [He|(a & b & He)];
    rewrite He in H; inversion H; subst.
  - contradiction.
  - exists a, b. rewrite !py_int_py_str. auto.
Qed.

Lemma page_count_invariant_witness :
  extract_page_numbers (T "pp. 100-150") = (T "100", T "150", T "51") /\
  exists a b : Z,
    py_int (T "100") = Some a /\ py_int (T "150") = Some b /\
    T "100" = py_str a /\ T "150" = py_str b /\ T "51" = py_str (b - a + 1).
Proof.
  split; [vm_compute; reflexivity|].
  apply (proj1 page_count_invariant (T "pp. 100-150")).
  - vm_compute. reflexivity.
  - discriminate.
Defined.

(** C2. The single-page patterns are the sixth and seventh of nine, and
    the two slices of the source are [patterns[:-2]] and [patterns[-2:]]:
    the first loop runs over the single-page patterns, where the missing
    second group sends it to the next pattern, and the second loop runs
    over the volume-qualified and the Elsevier range patterns. On
    ["p. 2023"] no range pattern matches, the labelled single-page pattern
    captures 2023, and the extractor returns the empty triple; on
    ["Vol 3 p. 57"] it returns the volume. *)
Theorem single_page_patterns_not_in_second_loop :
  last2 page_patterns = drop 7 page_patterns /\
  (forall pattern, In pattern range_patterns ->
                   search pattern (T "p. 2023") = None) /\
  (exists pattern m,
      In pattern single_page_patterns /\
      search pattern (T "p. 2023") = Some m /\
      group m 1 = Some (T "2023") /\ group m 2 = None) /\
  extract_page_numbers (T "p. 2023") = ([], [], []) /\
  extract_page_numbers (T "Vol 3 p. 57") = (T "3", T "3", T "1").
Proof.
  split; [reflexivity|]. split.
  - intros pattern Hin. unfold range_patterns, page_patterns in Hin.
    simpl in Hin. each_pattern Hin.
  - split.
    + exists (nth 5 page_patterns Eps), [(1%nat, T "2023")].
      split; [simpl; auto|]. split; [vm_compute; reflexivity|].
      split; reflexivity.
    + split; vm_compute; reflexivity.
Qed.

Lemma In_take {A : Type} (x : A) n l : In x (take n l) -> In x l.
Proof.
  revert l. induction n as [|n IH]; intros [|y l]; simpl;
    try contradiction.
  intros [H|H]; auto.
Qed.

Lemma In_drop {A : Type} (x : A) n l : In x (drop n l) -> In x l.
Proof.
  revert l. induction n as [|n IH]; intros [|y l]; simpl; auto.
Qed.

Lemma plausible_page_spec n : plausible_page n = true <-> page_like n.
Proof.
  unfold plausible_page, page_like.
  rewrite !andb_true_iff, negb_true_iff, andb_false_iff.
  rewrite !Z.leb_le, !Z.leb_gt. lia.
Qed.




(** ** The record assembler *)

Lemma backoffs_app tr1 tr2 :
  backoffs (tr1 ++ tr2) = backoffs tr1 ++ backoffs tr2.
Proof.
  induction tr1 as [|[l|s|lo hi] tr1 IH]; simpl; auto. rewrite IH. reflexivity.
Qed.

Lemma attempts_made_app tr1 tr2 :
  attempts_made (tr1 ++ tr2) = attempts_made tr1 ++ attempts_made tr2.
Proof.
  induction tr1 as [|[[]|s|lo hi] tr1 IH]; simpl; auto.
  rewrite IH. reflexivity.
Qed.


Section AssemblerProperties.

Context {W : Type} {src : Source W}.

(** What one round of the publication loop does, by the outcome of the
    fetch. *)
Lemma publication_step_eq search_query author pub (st : state W) :
  publication_step search_query author pub st =
  match fill_pub pub (world st) with
  | (Ok filled_pub, w') =>
      (Ok tt,
       mkState (sleep_uniform 2 5 w')
         (publications_data st ++
          [build_publication search_query author filled_pub])
         (trace st ++
          [Print (LProcessed (get (bib_of filled_pub) "title"));
           SleepUniform 2 5]))
  | (Raised e, w') =>
      (Ok tt,
       mkState w' (publications_data st) (trace st ++ [Print (LPubError e)]))
  end.
Proof.
  unfold publication_step, try_except, process_publication, bind, call,
    append, print, emit, sleep_random.
  destruct (fill_pub pub (world st)) as [[filled_pub|e] w']; simpl;
    [|reflexivity].
  rewrite <- app_assoc. reflexivity.
Qed.

(** The publication loop never raises; it only adds rows it built and
    events of its own. *)
Lemma publication_loop_ok search_query author pubs :
  forall st : state W,
  exists st' rows events,
    publication_loop search_query author pubs st = (Ok tt, st') /\
    publications_data st' = publications_data st ++ rows /\
    trace st' = trace st ++ events /\
    Forall (built search_query) rows /\ Forall loop_event events.
Proof.
  induction pubs as [|pub rest IH]; intros st.
  - exists st, [], []. simpl. rewrite !app_nil_r. repeat split; constructor.
  - simpl. unfold bind at 1. rewrite publication_step_eq.
    destruct (fill_pub pub (world st)) as [[filled_pub|e] w'] eqn:Hf.
    + match goal with |- context [publication_loop _ _ rest ?s] =>
        destruct (IH s) as (st' & rows & events & Hl & Hp & Ht & Hb & He)
      end.
      simpl in Hp, Ht.
      exists st', (build_publication search_query author filled_pub :: rows),
        (Print (LProcessed (get (bib_of filled_pub) "title"))
         :: SleepUniform 2 5 :: events).
      rewrite Hl, Hp, Ht, <- !app_assoc. simpl.
      repeat split; auto.
      * constructor; [|assumption].
        exists author, pub, filled_pub, (world st), w'. auto.
      * repeat constructor. assumption.
    + match goal with |- context [publication_loop _ _ rest ?s] =>
        destruct (IH s) as (st' & rows & events & Hl & Hp & Ht & Hb & He)
      end.
      simpl in Hp, Ht.
      exists st', rows, (Print (LPubError e) :: events).
      rewrite Hl, Hp, Ht, <- !app_assoc. simpl.
      repeat split; auto. constructor; [exact I|assumption].
Qed.


(** An attempt that raises has announced itself and done nothing else to
    the output and the trace. *)
Lemma attempt_body_raised search_query attempt max_retries
    (st st' : state W) e :
  attempt_body search_query attempt max_retries st = (Raised e, st') ->
  publications_data st' = publications_data st /\
  trace st' = trace st ++ [Print (LAttempt (attempt + 1) max_retries)].
Proof.
  unfold attempt_body, bind, try_except, call, print, emit, publications_of,
    ret, raise. cbn.
  destruct (search_author search_query (world st)) as [[it|e1] w1]; cbn;
    [|intros H; inversion H; subst; auto].
  destruct (next_author it w1) as [[a|e2] w2]; cbn.
  - destruct (fill_author a w2) as [[a'|e3] w3]; cbn.
    + destruct (author_publications a') as [pubs|]; cbn;
        [|intros H; inversion H; subst; auto].
      match goal with |- context [publication_loop _ _ pubs ?s] =>
        destruct (publication_loop_ok search_query a' pubs s)
          as (s' & rows & events & Hl & _)
      end.
      rewrite Hl. discriminate.
    + destruct (is_stop_iteration e3); simpl;
        intros H; inversion H; subst; auto.
  - destruct (is_stop_iteration e2); simpl;
      intros H; inversion H; subst; auto.
Qed.

(** An attempt that ends has announced itself, then added rows it built
    and events of the publication loop. *)
Lemma attempt_body_ended search_query attempt max_retries
    (st st' : state W) :
  attempt_body search_query attempt max_retries st = (Ok tt, st') ->
  exists rows events,
    publications_data st' = publications_data st ++ rows /\
    trace st' =
      trace st ++ Print (LAttempt (attempt + 1) max_retries) :: events /\
    Forall (built search_query) rows /\ Forall loop_event events.
Proof.
  assert (Hno : exists rows events,
            publications_data st = publications_data st ++ rows /\
            (trace st ++ [Print (LAttempt (attempt + 1) max_retries)])
              ++ [Print LNoAuthor] =
              trace st ++ Print (LAttempt (attempt + 1) max_retries)
                :: events /\
            Forall (built (W := W) search_query) rows /\
            Forall loop_event events).
  { exists [], [Print LNoAuthor].
    rewrite app_nil_r, <- app_assoc. repeat split; repeat constructor. }
  unfold attempt_body, bind, try_except, call, print, emit, publications_of,
    ret, raise. cbn.
  destruct (search_author search_query (world st)) as [[it|e1] w1]; cbn;
    [|discriminate].
  destruct (next_author it w1) as [[a|e2] w2]; cbn.
  - destruct (fill_author a w2) as [[a'|e3] w3]; cbn.
    + destruct (author_publications a') as [pubs|]; cbn; [|discriminate].
      match goal with |- context [publication_loop _ _ pubs ?s] =>
        destruct (publication_loop_ok search_query a' pubs s)
          as (s' & rows & events & Hl & Hp & Ht & Hb & He)
      end.
      rewrite Hl. intros H. inversion H; subst. simpl in Hp, Ht.
      exists rows, events. rewrite Hp, Ht, <- app_assoc. auto.
    + destruct (is_stop_iteration e3); simpl; [|discriminate].
      intros H. inversion H; subst. simpl. apply Hno.
  - destruct (is_stop_iteration e2); simpl; [|discriminate].
    intros H. inversion H; subst. simpl. apply Hno.
Qed.

(** The outer handler never raises: it prints, and sleeps unless the
    attempt was the last. *)
Lemma attempt_failed_eq attempt max_retries e (st : state W) :
  attempt_failed attempt max_retries e st =
  (Ok tt,
   if (attempt <? max_retries - 1)%Z then
     mkState (sleep ((attempt + 1) * 5) (world st)) (publications_data st)
       (trace st ++
        [Print (LAttemptError (attempt + 1) e);
         Print (LWaiting ((attempt + 1) * 5)); Sleep ((attempt + 1) * 5)])
   else
     mkState (world st) (publications_data st)
       (trace st ++
        [Print (LAttemptError (attempt + 1) e); Print LMaxRetries])).
Proof.
  unfold attempt_failed, bind, print, emit, time_sleep.
  destruct (attempt <? max_retries - 1)%Z; cbn; rewrite <- !app_assoc;
    reflexivity.
Qed.

Lemma retry_loop_raised search_query max_retries attempt rest
    (st st1 : state W) e :
  attempt_body search_query attempt max_retries st = (Raised e, st1) ->
  retry_loop search_query max_retries (attempt :: rest) st =
  retry_loop search_query max_retries rest
    (snd (attempt_failed attempt max_retries e st1)).
Proof.
  intros H. simpl. rewrite H. unfold bind.
  rewrite attempt_failed_eq. reflexivity.
Qed.

Lemma retry_loop_ended search_query max_retries attempt rest
    (st st1 : state W) :
  attempt_body search_query attempt max_retries st = (Ok tt, st1) ->
  retry_loop search_query max_retries (attempt :: rest) st = (Ok tt, st1).
Proof. intros H. simpl. rewrite H. reflexivity. Qed.

(** The retry loop never raises, and what it adds to the output are rows
    it built. *)
Lemma retry_loop_ok search_query max_retries attempts :
  forall st : state W,
  exists st' rows,
    retry_loop search_query max_retries attempts st = (Ok tt, st') /\
    publications_data st' = publications_data st ++ rows /\
    Forall (built search_query) rows.
Proof.
  induction attempts as [|attempt rest IH]; intros st.
  - exists st, []. simpl. rewrite app_nil_r. repeat split. constructor.
  - destruct (attempt_body search_query attempt max_retries st)
      as [[[]|e] st1] eqn:Ha.
    + rewrite (retry_loop_ended _ _ _ _ _ _ Ha).
      apply attempt_body_ended in Ha as (rows & events & Hp & _ & Hb & _).
      exists st1, rows. auto.
    + rewrite (retry_loop_raised _ _ _ _ _ _ _ Ha).
      apply attempt_body_raised in Ha as [Hp _].
      destruct (IH (snd (attempt_failed attempt max_retries e st1)))
        as (st' & rows & Hl & Hp' & Hb).
      exists st', rows. rewrite Hl, Hp'. repeat split; auto.
      rewrite attempt_failed_eq.
      destruct (attempt <? max_retries - 1)%Z; simpl; rewrite Hp; reflexivity.
Qed.

(** [scrape_scholar_data] always returns, and returns rows it built. *)
Lemma scrape_scholar_data_returns search_query max_retries (w : W) :
  exists out st,
    scrape_scholar_data search_query max_retries w = (Ok out, st) /\
    out = publications_data st /\ Forall (built search_query) out.
Proof.
  unfold scrape_scholar_data.
  destruct (retry_loop_ok search_query max_retries (range max_retries)
              (init w)) as (st' & rows & Hl & Hp & Hb).
  rewrite Hl. exists (publications_data st'), st'.
  repeat split. rewrite Hp. assumption.
Qed.

Lemma scrape_scholar_data_built search_query max_retries (w : W) out st row :
  scrape_scholar_data search_query max_retries w = (Ok out, st) ->
  In row out -> built search_query row.
Proof.
  intros H Hin.
  destruct (scrape_scholar_data_returns search_query max_retries w)
    as (out' & st' & H' & _ & Hb).
  rewrite H in H'. inversion H'; subst.
  rewrite List.Forall_forall in Hb. auto.
Qed.


End AssemblerProperties.



Lemma range_pos max_retries :
  (0 < max_retries)%Z -> exists rest, range max_retries = 0%Z :: rest.
Proof.
  intros H. unfold range.
  destruct (Z.to_nat max_retries) as [|k] eqn:Hk; [lia|].
  simpl. eauto.
Qed.



(** C7. When the search yields no author the assembler stops at once: it
    returns the output as it is, which is empty, and the trace gains the
    announcement of the attempt and the "no author" line only, no further
    attempt and no sleep. This holds at any attempt; on the first one the
    whole run is those two lines. *)
Theorem no_author_terminates :
  forall (W : Type) (src : Source W) (search_query : text) (max_retries : Z)
         (attempt : Z) (rest : list Z) (w : W) (tr : list event)
         (it : author_iter) (w1 w2 : W),
    search_author search_query w = (Ok it, w1) ->
    next_author it w1 = (Raised StopIteration, w2) ->
    retry_loop search_query max_retries (attempt :: rest) (mkState w [] tr) =
      (Ok tt,
       mkState w2 []
         (tr ++ [Print (LAttempt (attempt + 1) max_retries); Print LNoAuthor]))
    /\
    ((0 < max_retries)%Z ->
     scrape_scholar_data search_query max_retries w =
       (Ok [],
        mkState w2 [] [Print (LAttempt 1 max_retries); Print LNoAuthor])).
Proof.
  intros W src search_query max_retries attempt rest w tr it w1 w2 Hs Hn.
  assert (Hb : forall a tr',
             attempt_body search_query a max_retries (mkState w [] tr') =
             (Ok tt,
              mkState w2 []
                (tr' ++ [Print (LAttempt (a + 1) max_retries);
                         Print LNoAuthor]))).
  { intros a tr'.
    unfold attempt_body, bind, try_except, call, print, emit, ret. cbn.
    rewrite Hs. cbn. rewrite Hn. cbn. rewrite <- app_assoc. reflexivity. }
  split.
  - apply retry_loop_ended. apply Hb.
  - intros Hpos. unfold scrape_scholar_data.
    destruct (range_pos max_retries Hpos) as [rest' ->].
    rewrite (retry_loop_ended _ _ _ _ _ _ (Hb 0%Z [])). reflexivity.
Qed.

Lemma no_author_terminates_witness :
  scrape_scholar_data demo_query default_max_retries (mkMock 0 None) =
    (Ok [],
     mkState (mkMock 0 None) []
       [Print (LAttempt 1 default_max_retries); Print LNoAuthor]).
Proof.
  refine (proj2 (no_author_terminates Mock mock_source demo_query
                   default_max_retries 0%Z [] (mkMock 0 None) [] None
                   (mkMock 0 None) (mkMock 0 None) _ _) _).
  - reflexivity.
  - reflexivity.
  - reflexivity.
Defined.



(** ** The rows *)





(** C1, as the specification states it, fails: the issue extractor is not
    given the corpus. Here the abstract names an issue, the citation and
    the volume do not, and the ['Issue'] column is empty. *)
Lemma issue_extractor_not_given_corpus :
  ~ (forall (search_query : text) (author : Author) (filled_pub : Pub),
        field "Issue" (build_publication search_query author filled_pub) =
        Some (VStr (extract_issue (full_text (bib_of filled_pub))))).
Proof.
  intros H. specialize (H demo_query demo_author demo_pub).
  vm_compute in H. discriminate H.
Qed.

(** C1, amended. In every row of the output the page columns, the ISSN
    and the ISBN are extracted from the corpus, the concatenation of the
    citation, abstract, note, volume and pages fields in that order; the
    issue is extracted from the citation followed by the volume; the
    conference name from the venue and the title. *)
Theorem extractor_inputs :
  forall (W : Type) (src : Source W) (search_query : text) (max_retries : Z)
         (w : W) (out : list publication) (st : state W) (row : publication),
    scrape_scholar_data search_query max_retries w = (Ok out, st) ->
    In row out ->
    exists (author : Author) (pub filled_pub : Pub) (w1 w2 : W),
      fill_pub pub w1 = (Ok filled_pub, w2) /\
      row = build_publication search_query author filled_pub /\
      let bib := bib_of filled_pub in
      let corpus :=
        str_of (get bib "citation") ++ str_of (get bib "abstract") ++
        str_of (get bib "note") ++ str_of (get bib "volume") ++
        str_of (get bib "pages") in
      (field "Page start" row, field "Page end" row, field "Page count" row) =
        (let '(start_page, end_page, page_count) :=
           extract_page_numbers corpus in
         (Some (VStr start_page), Some (VStr end_page),
          Some (VStr page_count))) /\
      field "ISSN" row = Some (VStr (extract_issn corpus)) /\
      field "ISBN" row = Some (VStr (extract_isbn corpus)) /\
      field "Issue" row =
        Some (VStr (extract_issue
                      (str_of (get bib "citation") ++
                       str_of (get bib "volume")))) /\
      field "Name of Conference" row =
        Some (extract_conference_name (get bib "venue") (get bib "title")).
Proof.
  intros W src search_query max_retries w out st row Hs Hin.
  destruct (scrape_scholar_data_built _ _ _ _ _ _ Hs Hin)
    as (author & pub & filled_pub & w1 & w2 & Hf & ->).
  exists author, pub, filled_pub, w1, w2.
  split; [exact Hf|]. split; [reflexivity|].
  unfold build_publication. fold (full_text (bib_of filled_pub)).
  fold (issue_text (bib_of filled_pub)). cbv zeta.
  destruct (extract_page_numbers (full_text (bib_of filled_pub)))
    as [[start_page end_page] page_count].
  repeat split.
Qed.

Lemma extractor_inputs_witness :
  exists (author : Author) (pub filled_pub : Pub) (w1 w2 : Mock),
    fill_pub pub w1 = (Ok filled_pub, w2) /\
    demo_row = build_publication demo_query author filled_pub /\
    let bib := bib_of filled_pub in
    let corpus :=
      str_of (get bib "citation") ++ str_of (get bib "abstract") ++
      str_of (get bib "note") ++ str_of (get bib "volume") ++
      str_of (get bib "pages") in
    (field "Page start" demo_row, field "Page end" demo_row,
     field "Page count" demo_row) =
      (let '(start_page, end_page, page_count) :=
         extract_page_numbers corpus in
       (Some (VStr start_page), Some (VStr end_page),
        Some (VStr page_count))) /\
    field "ISSN" demo_row = Some (VStr (extract_issn corpus)) /\
    field "ISBN" demo_row = Some (VStr (extract_isbn corpus)) /\
    field "Issue" demo_row =
      Some (VStr (extract_issue
                    (str_of (get bib "citation") ++
                     str_of (get bib "volume")))) /\
    field "Name of Conference" demo_row =
      Some (extract_conference_name (get bib "venue") (get bib "title")).
Proof.
  pose (run := scrape_scholar_data demo_query default_max_retries demo_world).
  apply (extractor_inputs Mock mock_source demo_query default_max_retries
           demo_world (publications_data (snd run)) (snd run) demo_row).
  - vm_compute. reflexivity.
  - vm_compute. left. reflexivity.
Defined.

(** * Further properties of the extractors *)

(** ** Where a match lies *)

Lemma search_sound_at (r : regex) :
  forall s m,
    search r s = Some m ->
    exists pre w post, s = pre ++ w ++ post /\ Matches r w [] m.
Proof.
  induction s as [|x s IH]; intros m H; simpl in H.
  - destruct (mtch r [] [] (fun _ c => Some c)) eqn:Hm; [|discriminate].
    inversion H; subst.
    apply mtch_sound in Hm as (w & s' & c' & Hs & M & Hk).
    inversion Hk; subst. exists [], w, s'. auto.
  - destruct (mtch r (x :: s) [] (fun _ c => Some c)) eqn:Hm.
    + inversion H; subst.
      apply mtch_sound in Hm as (w & s' & c' & Hs & M & Hk).
      inversion Hk; subst. exists [], w, s'. auto.
    + destruct (IH m H) as (pre & w & post & -> & M).
      exists (x :: pre), w, post. auto.
Qed.

Lemma occurs_in_app_l g w1 w2 : occurs_in g w1 -> occurs_in g (w1 ++ w2).
Proof.
  intros (pre & post & ->). exists pre, (post ++ w2).
  rewrite <- !app_assoc. reflexivity.
Qed.

Lemma occurs_in_app_r g w1 w2 : occurs_in g w2 -> occurs_in g (w1 ++ w2).
Proof.
  intros (pre & post & ->). exists (w1 ++ pre), post.
  rewrite <- !app_assoc. reflexivity.
Qed.

Lemma occurs_in_refl g : occurs_in g g.
Proof. exists [], []. rewrite app_nil_r. reflexivity. Qed.

(** The groups a match adds are runs of the word it consumed. *)
Lemma matches_caps_occur r w c c' :
  Matches r w c c' ->
  exists new, c' = new ++ c /\
              Forall (fun ig => occurs_in (snd ig) w) new.
Proof.
  induction 1 as [c|p x c Hp|r1 r2 w1 w2 c c1 c2 _ IH1 _ IH2
                  |r1 r2 w c c' _ IH|r1 r2 w c c' _ IH
                  |greedy p lo hi w c Hw _ _|i r w c c' M IH|r c|c];
    try (exists []; split; [reflexivity|constructor]); auto.
  - destruct IH1 as (n1 & -> & H1). destruct IH2 as (n2 & -> & H2).
    exists (n2 ++ n1). rewrite <- app_assoc. split; [reflexivity|].
    apply Forall_app. split.
    + eapply Forall_impl; [exact H2|]. intros ig. apply occurs_in_app_r.
    + eapply Forall_impl; [exact H1|]. intros ig. apply occurs_in_app_l.
  - destruct IH as (n & -> & Hn). exists ((i, w) :: n).
    split; [reflexivity|]. constructor; [apply occurs_in_refl|assumption].
Qed.

Lemma group_in m i g : group m i = Some g -> In (i, g) m.
Proof.
  induction m as [|[j w] m IH]; simpl; [discriminate|].
  destruct (Nat.eqb i j) eqn:Hij.
  - intros H. inversion H; subst. apply Nat.eqb_eq in Hij. subst. auto.
  - auto.
Qed.

(** A group of a match is a run of the text searched. *)
Lemma search_group_occurs r s m i g :
  search r s = Some m -> group m i = Some g -> occurs_in g s.
Proof.
  intros Hs Hg. apply search_sound_at in Hs as (pre & w & post & -> & M).
  apply matches_caps_occur in M as (new & -> & Hn).
  rewrite app_nil_r in Hg. apply group_in in Hg.
  rewrite List.Forall_forall in Hn. specialize (Hn _ Hg). simpl in Hn.
  apply occurs_in_app_r, occurs_in_app_l. exact Hn.
Qed.

(** ** Reading a match back *)

Lemma matches_seq_inv r1 r2 w c c2 :
  Matches (Seq r1 r2) w c c2 ->
  exists w1 w2 c1,
    w = w1 ++ w2 /\ Matches r1 w1 c c1 /\ Matches r2 w2 c1 c2.
Proof. intros H. inversion H; subst. eauto 7. Qed.

Lemma matches_eps_inv w c c' : Matches Eps w c c' -> w = [] /\ c' = c.
Proof. intros H. inversion H; subst. auto. Qed.

Lemma matches_chr_inv p w c c' :
  Matches (Chr p) w c c' -> exists x, w = [x] /\ p x = true /\ c' = c.
Proof. intros H. inversion H; subst. eauto. Qed.

Lemma matches_rep_inv greedy p lo hi w c c' :
  Matches (Rep greedy p lo hi) w c c' ->
  Forall (fun x => p x = true) w /\ (lo <= length w)%nat /\
  (forall h, hi = Some h -> (length w <= h)%nat) /\ c' = c.
Proof. intros H. inversion H; subst. auto. Qed.

Lemma matches_group_inv i r w c c' :
  Matches (Group i r) w c c' ->
  exists c1, Matches r w c c1 /\ c' = (i, w) :: c1.
Proof. intros H. inversion H; subst. eauto. Qed.

Lemma matches_alt_inv r1 r2 w c c' :
  Matches (Alt r1 r2) w c c' -> Matches r1 w c c' \/ Matches r2 w c c'.
Proof. intros H. inversion H; subst; auto. Qed.

Lemma matches_lit_inv str :
  forall w c c', Matches (lit str) w c c' -> w = T str /\ c' = c.
Proof.
  induction str as [|a str IH]; intros w c c' H.
  - apply matches_eps_inv in H. exact H.
  - change (lit (String a str)) with (Seq (Chr (chr_is a)) (lit str)) in H.
    apply matches_seq_inv in H as (w1 & w2 & c1 & -> & H1 & H2).
    apply matches_chr_inv in H1 as (x & -> & Hx & ->).
    apply IH in H2 as [-> ->].
    unfold chr_is in Hx. apply N.eqb_eq in Hx. subst. auto.
Qed.

(** Takes a match of a concatenation apart, piece by piece. *)
Ltac inv_matches :=
  repeat match goal with
  | H : Matches (Seq _ _) _ _ _ |- _ =>
      apply matches_seq_inv in H; destruct H as (? & ? & ? & ? & ? & ?)
  | H : Matches Eps _ _ _ |- _ =>
      apply matches_eps_inv in H; destruct H as [? ?]
  | H : Matches (lit _) _ _ _ |- _ =>
      apply matches_lit_inv in H; destruct H as [? ?]
  | H : Matches (Chr _) _ _ _ |- _ =>
      apply matches_chr_inv in H; destruct H as (? & ? & ? & ?)
  | H : Matches (Rep _ _ _ _) _ _ _ |- _ =>
      apply matches_rep_inv in H; destruct H as (? & ? & ? & ?)
  | H : Matches (Group _ _) _ _ _ |- _ =>
      apply matches_group_inv in H; destruct H as (? & ? & ?)
  end; subst.

(** ** The ISSN extractor *)

Lemma matches_issn_shape w c c' :
  Matches issn_shape w c c' -> issn_shaped w /\ c' = c.
Proof.
  unfold issn_shape, times. cbn [cat fold_right]. intros H. inv_matches.
  split; [|reflexivity].
  match goal with
  | |- issn_shaped (?d1 ++ _ ++ ?d2 ++ []) => exists d1, d2
  end.
  rewrite app_nil_r.
  repeat match goal with
  | Hhi : forall h, Some 4%nat = Some h -> _ |- _ =>
      specialize (Hhi 4%nat eq_refl)
  end.
  split; [reflexivity|]. repeat split; auto; lia.
Qed.

Lemma issn_patterns_shape :
  Forall (fun pattern =>
            forall w m, Matches pattern w [] m ->
                        exists g, m = [(1%nat, g)] /\ issn_shaped g)
         issn_patterns.
Proof.
  repeat constructor; intros w m H; unfold opt_chr, star in H;
    cbn [cat fold_right] in H; inv_matches;
    match goal with
    | H : Matches issn_shape _ _ _ |- _ =>
        apply matches_issn_shape in H as [Hg ->]
    end; eauto.
Qed.

Lemma first_group1_cases bib_text :
  forall patterns,
    first_group1 patterns bib_text = [] \/
    exists pattern m,
      In pattern patterns /\ search pattern bib_text = Some m /\
      first_group1 patterns bib_text = group1 m.
Proof.
  induction patterns as [|pattern rest IH]; simpl; [left; reflexivity|].
  destruct (search pattern bib_text) as [m|] eqn:Hs.
  - right. exists pattern, m. auto.
  - destruct IH as [IH|(p & m & Hin & Hs' & IH)]; [left; exact IH|right].
    exists p, m. auto.
Qed.

(** X1. [extract_issn] returns the empty string or four digits, a hyphen
    and four digits, and what it returns stands in the text as it is. *)
Theorem extract_issn_shaped :
  forall bib_text : text,
    extract_issn bib_text = [] \/
    (issn_shaped (extract_issn bib_text) /\
     length (extract_issn bib_text) = 9%nat /\
     occurs_in (extract_issn bib_text) bib_text).
Proof.
  intros bib_text. unfold extract_issn.
  destruct (first_group1_cases bib_text issn_patterns)
    as [H|(pattern & m & Hin & Hs & ->)]; [left; exact H|right].
  pose proof issn_patterns_shape as Hall.
  rewrite List.Forall_forall in Hall.
  destruct (search_sound_at _ _ _ Hs) as (pre & w & post & _ & M).
  destruct (Hall pattern Hin w m M) as (g & -> & Hg).
  change (group1 [(1%nat, g)]) with g.
  split; [exact Hg|]. split.
  - destruct Hg as (d1 & d2 & -> & H1 & H2 & _).
    rewrite length_app. simpl. lia.
  - apply (search_group_occurs _ _ _ 1%nat g Hs). reflexivity.
Qed.

(** ** Digits *)

Lemma decimal_in_above zs y :
  Forall (fun z => y < z) zs -> decimal_in zs y = None.
Proof.
  induction 1 as [|z zs Hz _ IH]; simpl; [reflexivity|].
  replace (z <=? y) with false by (symmetry; apply N.leb_gt; exact Hz).
  exact IH.
Qed.

(** Below U+0660 the only digits are the ASCII ones. *)
Lemma is_digit_low y : is_digit y = true -> y < 0x660 -> 0x30 <= y <= 0x39.
Proof.
  unfold is_digit, decimal_value. set (rest := tl nd_zeros).
  change nd_zeros with (0x30 :: rest). cbn [decimal_in]. intros H Hy.
  destruct ((48 <=? y) && (y <? 48 + 10)) eqn:H0.
  - apply andb_prop in H0 as [H1 H2].
    apply N.leb_le in H1. apply N.ltb_lt in H2. lia.
  - rewrite decimal_in_above in H; [discriminate|].
    subst rest. unfold nd_zeros. cbn [tl].
    repeat (constructor; [lia|]). constructor.
Qed.

Lemma digit_not_space c : is_digit c = true -> is_space c = false.
Proof.
  intros H. destruct (is_space c) eqn:Hs; [|reflexivity].
  unfold is_space, chr_in in Hs.
  apply List.existsb_exists in Hs as (k & Hin & Hk).
  apply N.eqb_eq in Hk. subst k. simpl in Hin.
  repeat (destruct Hin as [<-|Hin]; [vm_compute in H; discriminate H|]).
  destruct Hin.
Qed.

Lemma int_digits_run s :
  Forall (fun x => is_digit x = true) s ->
  forall acc seen,
    (0 <= acc)%Z -> s <> [] \/ seen = true ->
    exists n, int_digits acc seen s = Some n /\ (0 <= n)%Z.
Proof.
  induction 1 as [|c s Hc _ IH]; intros acc seen Hacc Hne; simpl.
  - destruct Hne as [Hne | ->]; [contradiction|]. eauto.
  - unfold is_digit in Hc. destruct (decimal_value c) as [d|]; [|discriminate].
    apply IH; [lia|auto].
Qed.

(** [int] reads every non-empty run of digits, as a natural number: the
    [ValueError] the loops guard against cannot come from a [\d+] group. *)
Lemma py_int_digit_run g :
  g <> [] -> Forall (fun x => is_digit x = true) g ->
  exists n, py_int g = Some n /\ (0 <= n)%Z.
Proof.
  intros Hne Hg. unfold py_int. rewrite strip_id.
  - destruct g as [|c ds]; [contradiction|].
    inversion Hg as [|? ? Hc Hds]; subst.
    destruct (c =? 45) eqn:H45;
      [apply N.eqb_eq in H45; subst; vm_compute in Hc; discriminate|].
    destruct (c =? 43) eqn:H43;
      [apply N.eqb_eq in H43; subst; vm_compute in Hc; discriminate|].
    apply int_digits_run; [assumption|lia|left; discriminate].
  - eapply Forall_impl; [exact Hg|]. apply digit_not_space.
Qed.

Lemma lower_char_digit x :
  is_digit (lower_char x) = true -> lower_char x = x.
Proof.
  unfold lower_char. destruct ((65 <=? x) && (x <=? 90)) eqn:Hx;
    [|reflexivity].
  intros H. apply andb_prop in Hx as [H1 H2].
  apply N.leb_le in H1. apply N.leb_le in H2.
  apply is_digit_low in H; lia.
Qed.

Lemma py_lower_digit_run g :
  Forall (fun x => is_digit x = true) (py_lower g) -> py_lower g = g.
Proof.
  unfold py_lower. induction g as [|x g IH]; simpl; [reflexivity|].
  intros H. inversion H as [|? ? Hx Hg]; subst.
  rewrite (lower_char_digit x Hx), (IH Hg). reflexivity.
Qed.

(** A run of digits of the lowered text is a run of the text. *)
Lemma occurs_in_py_lower g s :
  Forall (fun x => is_digit x = true) g ->
  occurs_in g (py_lower s) -> occurs_in g s.
Proof.
  intros Hg (pre & post & H). unfold py_lower in H.
  apply List.map_eq_app in H as (pre' & rest & -> & _ & H).
  apply List.map_eq_app in H as (g' & post' & -> & Hg' & _).
  exists pre', post'. f_equal. f_equal.
  rewrite <- Hg' in Hg. apply py_lower_digit_run in Hg.
  unfold py_lower in Hg. congruence.
Qed.

(** ** The issue extractor *)

Lemma issue_patterns_digits :
  Forall (fun pattern =>
            forall w m, Matches pattern w [] m ->
                        exists g, m = [(1%nat, g)] /\ g <> [] /\
                                  Forall (fun x => is_digit x = true) g)
         issue_patterns.
Proof.
  repeat constructor; intros w m H; unfold star, plus in H;
    cbn [cat fold_right] in H; inv_matches;
    match goal with
    | Hlo : (1 <= length ?g)%nat |- exists _, [(_, ?g)] = _ /\ _ =>
        exists g; repeat split; auto; destruct g;
        [simpl in Hlo; lia|discriminate]
    end.
Qed.

(** X2. [extract_issue] returns the empty string or a non-empty run of
    digits, and that run stands in the text. *)
Theorem extract_issue_digit_run :
  forall bib_text : text,
    extract_issue bib_text = [] \/
    (Forall (fun x => is_digit x = true) (extract_issue bib_text) /\
     occurs_in (extract_issue bib_text) (py_lower bib_text) /\
     occurs_in (extract_issue bib_text) bib_text).
Proof.
  intros bib_text. unfold extract_issue.
  destruct (first_group1_cases (py_lower bib_text) issue_patterns)
    as [H|(pattern & m & Hin & Hs & ->)]; [left; exact H|right].
  pose proof issue_patterns_digits as Hall.
  rewrite List.Forall_forall in Hall.
  destruct (search_sound_at _ _ _ Hs) as (pre & w & post & _ & M).
  destruct (Hall pattern Hin w m M) as (g & -> & Hne & Hg).
  change (group1 [(1%nat, g)]) with g.
  assert (Ho : occurs_in g (py_lower bib_text))
    by (apply (search_group_occurs _ _ _ 1%nat g Hs); reflexivity).
  split; [exact Hg|]. split; [exact Ho|].
  apply occurs_in_py_lower; assumption.
Qed.

(** ** The ISBN extractor *)

Lemma isbn_loop_cases bib_text :
  forall patterns,
    isbn_loop patterns bib_text = [] \/
    exists pattern m,
      In pattern patterns /\ search pattern bib_text = Some m /\
      isbn_loop patterns bib_text = strip_separators (group1 m).
Proof.
  induction patterns as [|pattern rest IH]; simpl; [left; reflexivity|].
  destruct (search pattern bib_text) as [m|] eqn:Hs.
  - destruct (isbn_length_ok (strip_separators (group1 m))).
    + right. exists pattern, m. auto.
    + destruct IH as [IH|(p & m' & Hin & Hs' & IH)]; [left; exact IH|right].
      exists p, m'. auto.
  - destruct IH as [IH|(p & m' & Hin & Hs' & IH)]; [left; exact IH|right].
    exists p, m'. auto.
Qed.

(** X3. What [extract_isbn] returns is read off the text: it is one run
    of digits and hyphens of the text, with the hyphens taken out. *)
Theorem extract_isbn_from_text :
  forall bib_text : text,
    extract_isbn bib_text = [] \/
    exists g,
      occurs_in g bib_text /\
      Forall (fun x => is_digit_hyphen x = true) g /\
      extract_isbn bib_text = strip_separators g.
Proof.
  intros bib_text. unfold extract_isbn.
  destruct (isbn_loop_cases bib_text isbn_patterns)
    as [H|(pattern & m & Hin & Hs & Hr)]; [left; exact H|].
  rewrite Hr. unfold group1.
  destruct (group m 1) as [g|] eqn:Hg; [right|left; reflexivity].
  exists g. split; [eapply search_group_occurs; eassumption|].
  split; [|reflexivity].
  pose proof isbn_patterns_class as Hall.
  rewrite List.Forall_forall in Hall.
  eapply search_group_class; [apply Hall; exact Hin|exact Hs|exact Hg].
Qed.

(** ** The page extractor, further *)

Lemma page_patterns_class : Forall (groups_class is_digit) page_patterns.
Proof. repeat constructor; simpl; auto. Qed.

Lemma py_str_natural n :
  (0 <= n)%Z -> py_str n = digits_of (Z.to_N n).
Proof.
  intros H. unfold py_str.
  destruct (n <? 0)%Z eqn:Hn; [apply Z.ltb_lt in Hn; lia|reflexivity].
Qed.

Lemma py_int_digits_natural g n :
  Forall (fun x => is_digit x = true) g -> py_int g = Some n -> (0 <= n)%Z.
Proof.
  intros Hg Hn. destruct g as [|c g]; [discriminate|].
  destruct (py_int_digit_run (c :: g)) as (n' & Hn' & Hpos);
    [discriminate|assumption|].
  congruence.
Qed.

Lemma range_of_match_natural pattern bib_text m r :
  In pattern page_patterns -> search pattern bib_text = Some m ->
  range_of_match m = Some r ->
  exists a b : N,
    r = (digits_of a, digits_of b, py_str (Z.of_N b - Z.of_N a + 1)).
Proof.
  intros Hin Hs. unfold range_of_match.
  pose proof page_patterns_class as Hall.
  rewrite List.Forall_forall in Hall. specialize (Hall _ Hin).
  destruct (group m 1) as [g1|] eqn:H1; [|discriminate].
  destruct (group m 2) as [g2|] eqn:H2; [|discriminate].
  destruct (py_int g1) as [a|] eqn:Ha; [|discriminate].
  destruct (py_int g2) as [b|] eqn:Hb; [|discriminate].
  rewrite !py_int_py_str. intros H. inversion H; subst.
  apply py_int_digits_natural in Ha;
    [|eapply search_group_class; eassumption].
  apply py_int_digits_natural in Hb;
    [|eapply search_group_class; eassumption].
  exists (Z.to_N a), (Z.to_N b).
  rewrite !py_str_natural, !Z2N.id by assumption. reflexivity.
Qed.

Lemma single_of_match_natural pattern bib_text m r :
  In pattern page_patterns -> search pattern bib_text = Some m ->
  single_of_match m = Some r ->
  exists a : N, r = (digits_of a, digits_of a, T "1").
Proof.
  intros Hin Hs. unfold single_of_match.
  pose proof page_patterns_class as Hall.
  rewrite List.Forall_forall in Hall. specialize (Hall _ Hin).
  destruct (group m 1) as [g1|] eqn:H1; [|discriminate].
  destruct (py_int g1) as [a|] eqn:Ha; [|discriminate].
  intros H. inversion H; subst.
  apply py_int_digits_natural in Ha;
    [|eapply search_group_class; eassumption].
  exists (Z.to_N a). rewrite !py_str_natural by assumption. reflexivity.
Qed.

Lemma fallback_page_natural numbers :
  fallback_page numbers = ([], [], []) \/
  exists a : N, fallback_page numbers = (digits_of a, digits_of a, T "1").
Proof.
  induction numbers as [|num rest IH]; simpl; [left; reflexivity|].
  destruct (py_int num) as [n|]; [|exact IH].
  destruct (plausible_page n) eqn:Hp; [|exact IH].
  right. exists (Z.to_N n). apply plausible_page_spec in Hp.
  destruct Hp as [Hp _]. rewrite py_str_natural by lia. reflexivity.
Qed.

(** X4. The start and the end page returned are natural numbers written
    in ASCII digits, whatever digits the text used; only the count can be
    negative, when the end is before the start. *)
Theorem page_numbers_are_naturals :
  forall (bib_text start_page end_page page_count : text),
    extract_page_numbers bib_text = (start_page, end_page, page_count) ->
    page_count <> [] ->
    exists a b : N,
      start_page = digits_of a /\ end_page = digits_of b /\
      page_count = py_str (Z.of_N b - Z.of_N a + 1) /\
      Forall ascii_digit start_page /\ Forall ascii_digit end_page.
Proof.
  intros bib_text start_page end_page page_count H Hne.
  assert (Hshape : (start_page, end_page, page_count) = ([], [], []) \/
            exists a b : N,
              (start_page, end_page, page_count) =
              (digits_of a, digits_of b, py_str (Z.of_N b - Z.of_N a + 1))).
  { rewrite <- H. unfold extract_page_numbers.
    destruct (first_parsed range_of_match _ bib_text) as [r|] eqn:H1.
    - apply first_parsed_some in H1 as (p & m & Hin & Hs & Hb).
      right. eapply range_of_match_natural; [|exact Hs|exact Hb].
      eapply In_take. exact Hin.
    - destruct (first_parsed single_of_match _ bib_text) as [r|] eqn:H2.
      + apply first_parsed_some in H2 as (p & m & Hin & Hs & Hb).
        destruct (single_of_match_natural p bib_text m r) as (a & ->);
          [eapply In_drop; exact Hin|exact Hs|exact Hb|].
        right. exists a, a.
        replace (Z.of_N a - Z.of_N a + 1)%Z with 1%Z by lia. reflexivity.
      + destruct (fallback_page_natural (findall_digits [] bib_text))
          as [Hf|(a & Hf)]; [left; exact Hf|right].
        exists a, a. rewrite Hf.
        replace (Z.of_N a - Z.of_N a + 1)%Z with 1%Z by lia. reflexivity. }
  destruct Hshape as [He|(a & b & He)]; inversion He; subst.
  - contradiction.
  - exists a, b. repeat split; apply digits_onto_ascii; constructor.
Qed.

Lemma page_numbers_are_naturals_witness :
  exists a b : N,
    T "12" = digits_of a /\ T "3" = digits_of b /\
    T "-8" = py_str (Z.of_N b - Z.of_N a + 1) /\
    Forall ascii_digit (T "12") /\ Forall ascii_digit (T "3").
Proof.
  apply (page_numbers_are_naturals (T "pp. 012-3")).
  - vm_compute. reflexivity.
  - discriminate.
Defined.







(** ** Matches that are found at once *)

(** A greedy repetition takes the whole run in front of it when the rest
    of the pattern accepts what follows the run. *)
Lemma rep_greedy_exact {R : Type} p (k : text -> option R) res s' :
  forall w lo hi,
    Forall (fun x => p x = true) w ->
    (lo <= length w)%nat ->
    (forall h, hi = Some h -> (length w <= h)%nat) ->
    hi = Some (length w) \/
      match s' with [] => True | c :: _ => p c = false end ->
    k s' = Some res ->
    rep true p lo hi (w ++ s') k = Some res.
Proof.
  induction w as [|x w IH]; intros lo hi Hw Hlo Hhi Hstop Hk.
  - simpl in Hlo. assert (lo = 0%nat) by lia. subst lo. simpl.
    destruct s' as [|c s'']; simpl; [exact Hk|].
    replace (p c && hi_open hi) with false; [exact Hk|]. symmetry.
    destruct Hstop as [-> | Hc]; [apply andb_false_r|].
    rewrite Hc. reflexivity.
  - inversion Hw as [|? ? Hx Hw']; subst. simpl. rewrite Hx.
    assert (Hopen : hi_open hi = true).
    { destruct hi as [[|h]|]; auto. specialize (Hhi 0%nat eq_refl).
      simpl in Hhi. lia. }
    rewrite Hopen. simpl.
    assert (Hrec : forall lo', (lo' <= length w)%nat ->
              rep true p lo' (hi_pred hi) (w ++ s') k = Some res).
    { intros lo' Hlo'. apply IH; auto.
      - intros h Hh. destruct hi as [h0|]; [|discriminate].
        simpl in Hh. inversion Hh; subst.
        specialize (Hhi h0 eq_refl). simpl in Hhi. lia.
      - destruct Hstop as [-> | Hc]; [left; reflexivity|right; exact Hc]. }
    destruct lo as [|lo'].
    + rewrite Hrec by lia. reflexivity.
    + apply Hrec. simpl in Hlo. lia.
Qed.

Lemma mtch_lit {R : Type} str :
  forall rest c (k : text -> caps -> option R),
    mtch (lit str) (T str ++ rest) c k = k rest c.
Proof.
  induction str as [|a str IH]; intros rest c k; [reflexivity|].
  change (lit (String a str)) with (Seq (Chr (chr_is a)) (lit str)).
  change (T (String a str) ++ rest) with (N_of_ascii a :: (T str ++ rest)).
  cbn [mtch]. unfold chr_is at 1. rewrite N.eqb_refl. apply IH.
Qed.

Lemma search_here r s m :
  mtch r s [] (fun _ c => Some c) = Some m -> search r s = Some m.
Proof. intros H. destruct s; simpl; rewrite H; reflexivity. Qed.

Lemma take_captured (w s' : text) :
  take (length (w ++ s') - length s') (w ++ s') = w.
Proof.
  rewrite length_app.
  replace (length w + length s' - length s')%nat with (length w) by lia.
  apply take_app_length.
Qed.


(** One step of a match found at once: the greedy repetition in front
    takes the run [w]. *)
Ltac take_run w :=
  match goal with
  | |- rep true ?p ?lo ?hi ?s ?k = Some ?res =>
      match s with
      | w ++ ?s' => apply (rep_greedy_exact p k res s' w lo hi)
      | _ => apply (rep_greedy_exact p k res s w lo hi)
      end;
      [ try solve [repeat constructor]; try assumption
      | try (simpl; lia)
      | try solve [intros ? Hh; inversion Hh; simpl; lia | discriminate]
      | try solve [left; reflexivity | right; reflexivity]
      | cbv beta ]
  end.






(** ** The ISSN extractor, further *)

Lemma issn_shaped_head g s :
  issn_shaped g ->
  exists d s', g ++ s = d :: s' /\ is_digit d = true.
Proof.
  intros (d1 & d2 & -> & H1 & _ & D1 & _).
  destruct d1 as [|d d1]; [discriminate|]. inversion D1; subst.
  exists d, ((d1 ++ 45 :: d2) ++ s). auto.
Qed.

(** What follows an ISSN label is white space or a digit, not a colon. *)
Lemma after_label_head (p : char -> bool) ws g s :
  (forall c, is_space c = true -> p c = false) ->
  (forall c, is_digit c = true -> p c = false) ->
  Forall (fun x => is_space x = true) ws -> issn_shaped g ->
  match ws ++ g ++ s with [] => True | c :: _ => p c = false end.
Proof.
  intros Hsp Hdg Hws Hg. destruct ws as [|c ws].
  - destruct (issn_shaped_head g s Hg) as (d & s' & -> & Hd). simpl. auto.
  - inversion Hws; subst. simpl. auto.
Qed.

(** The labelled pattern finds an ISSN written right after its label. *)
Lemma issn_label_found colon ws g rest :
  colon = [] \/ colon = T ":" ->
  Forall (fun x => is_space x = true) ws -> issn_shaped g ->
  search (nth 0 issn_patterns Eps) (T "ISSN" ++ colon ++ ws ++ g ++ rest) =
    Some [(1%nat, g)].
Proof.
  intros Hcolon Hws Hg. apply search_here.
  cbn [nth issn_patterns]. unfold opt_chr, star, issn_shape, times.
  cbn [cat fold_right mtch]. rewrite mtch_lit.
  take_run colon.
  { destruct Hcolon as [-> | ->]; repeat constructor. }
  { destruct Hcolon as [-> | ->]; intros h Hh; inversion Hh; simpl; lia. }
  { destruct Hcolon as [-> | ->]; [right|left; reflexivity].
    apply after_label_head; auto.
    - intros c Hc. unfold chr_is. apply N.eqb_neq. intros ->.
      vm_compute in Hc. discriminate.
    - intros c Hc. unfold chr_is. apply N.eqb_neq. intros ->.
      vm_compute in Hc. discriminate. }
  take_run ws.
  { right. destruct (issn_shaped_head g rest Hg) as (d & s' & -> & Hd).
    apply digit_not_space. exact Hd. }
  destruct Hg as (d1 & d2 & -> & L1 & L2 & D1 & D2).
  rewrite <- app_assoc. cbn [app].
  take_run d1.
  change (45 :: d2 ++ rest) with (T "-" ++ d2 ++ rest). rewrite mtch_lit.
  take_run d2.
  { left. rewrite L2. reflexivity. }
  replace (d1 ++ T "-" ++ d2 ++ rest) with ((d1 ++ 45 :: d2) ++ rest)
    by (rewrite <- app_assoc; reflexivity).
  rewrite take_captured. reflexivity.
Qed.

(** X7. An ISSN written after the label ["ISSN"], an optional colon and
    any white space, at the start of the text, is returned as it is,
    whatever follows it. *)
Theorem issn_label_round_trip :
  forall colon ws g rest : text,
    colon = [] \/ colon = T ":" ->
    Forall (fun x => is_space x = true) ws ->
    issn_shaped g ->
    extract_issn (T "ISSN" ++ colon ++ ws ++ g ++ rest) = g.
Proof.
  intros colon ws g rest Hcolon Hws Hg. unfold extract_issn.
  change issn_patterns
    with (nth 0 issn_patterns Eps :: tl issn_patterns).
  cbn [first_group1]. rewrite issn_label_found by assumption.
  reflexivity.
Qed.

Lemma issn_label_round_trip_witness :
  extract_issn (T "ISSN" ++ T ":" ++ T "  " ++ T "0317-8471" ++ T " (print)")
  = T "0317-8471".
Proof.
  apply (issn_label_round_trip (T ":") (T "  ") (T "0317-8471")
           (T " (print)")).
  - right. reflexivity.
  - repeat constructor.
  - exists (T "0317"), (T "8471"). repeat split; repeat constructor.
Defined.

(** ** The matcher finds what is there *)

Lemma rep_complete {R : Type} greedy p (k : text -> option R) s' :
  k s' <> None ->
  forall w lo hi,
    Forall (fun x => p x = true) w ->
    (lo <= length w)%nat ->
    (forall h, hi = Some h -> (length w <= h)%nat) ->
    rep greedy p lo hi (w ++ s') k <> None.
Proof.
  intros Hk. induction w as [|x w IH]; intros lo hi Hw Hlo Hhi.
  - simpl in Hlo. assert (lo = 0%nat) by lia. subst lo. simpl.
    destruct s' as [|c s'']; simpl; [exact Hk|].
    destruct (p c && hi_open hi); [|exact Hk].
    destruct greedy.
    + destruct (rep true p 0 (hi_pred hi) s'' k); [discriminate|exact Hk].
    + destruct (k (c :: s'')); [discriminate|contradiction].
  - inversion Hw as [|? ? Hx Hw']; subst. simpl. rewrite Hx.
    assert (Hopen : hi_open hi = true).
    { destruct hi as [[|h]|]; auto. specialize (Hhi 0%nat eq_refl).
      simpl in Hhi. lia. }
    rewrite Hopen. simpl.
    assert (Hrec : forall lo', (lo' <= length w)%nat ->
              rep greedy p lo' (hi_pred hi) (w ++ s') k <> None).
    { intros lo' Hlo'. apply IH; auto.
      intros h Hh. destruct hi as [h0|]; [|discriminate].
      simpl in Hh. inversion Hh; subst.
      specialize (Hhi h0 eq_refl). simpl in Hhi. lia. }
    destruct lo as [|lo']; [|apply Hrec; simpl in Hlo; lia].
    specialize (Hrec 0%nat (Nat.le_0_l _)).
    destruct greedy.
    + destruct (rep true p 0 (hi_pred hi) (w ++ s') k);
        [discriminate|contradiction].
    + destruct (k (x :: w ++ s')); [discriminate|exact Hrec].
Qed.

(** On a pattern without lookahead or end anchor, what [Matches] allows
    the matcher finds, if the rest of the pattern accepts it. *)
Lemma mtch_complete r w c c' :
  Matches r w c c' -> plain r ->
  forall {R : Type} s' (k : text -> caps -> option R),
    k s' c' <> None -> mtch r (w ++ s') c k <> None.
Proof.
  induction 1 as [c|p x c Hp|r1 r2 w1 w2 c c1 c2 _ IH1 _ IH2
                  |r1 r2 w c c' _ IH|r1 r2 w c c' _ IH
                  |greedy p lo hi w c Hw Hlo Hhi|i r w c c' M IH|r c|c];
    intros Hplain R s' k Hk; simpl in Hplain; try contradiction.
  - exact Hk.
  - simpl. rewrite Hp. exact Hk.
  - destruct Hplain as [P1 P2]. simpl. rewrite <- app_assoc.
    apply IH1; [exact P1|]. apply IH2; [exact P2|exact Hk].
  - destruct Hplain as [P1 P2]. simpl.
    destruct (mtch r1 (w ++ s') c k) eqn:H1; [discriminate|].
    exfalso. revert H1. apply IH; assumption.
  - destruct Hplain as [P1 P2]. simpl.
    destruct (mtch r1 (w ++ s') c k); [discriminate|].
    apply IH; assumption.
  - simpl. apply rep_complete; assumption.
  - simpl. apply IH; [exact Hplain|].
    rewrite take_captured. exact Hk.
Qed.

Lemma search_complete r w m :
  Matches r w [] m -> plain r ->
  forall pre post, search r (pre ++ w ++ post) <> None.
Proof.
  intros M Hplain pre post. induction pre as [|x pre IH].
  - assert (H : mtch r (w ++ post) [] (fun _ c => Some c) <> None)
      by (eapply mtch_complete; [exact M|exact Hplain|discriminate]).
    simpl. destruct (w ++ post); simpl;
      destruct (mtch r _ [] (fun _ c => Some c)); congruence.
  - simpl. destruct (mtch r (x :: pre ++ w ++ post) [] (fun _ c => Some c));
      [discriminate|exact IH].
Qed.

Lemma matches_lit str c : Matches (lit str) (T str) c c.
Proof.
  induction str as [|a str IH]; [constructor|].
  change (lit (String a str)) with (Seq (Chr (chr_is a)) (lit str)).
  change (T (String a str)) with ([N_of_ascii a] ++ T str).
  econstructor; [|exact IH]. constructor. unfold chr_is. apply N.eqb_refl.
Qed.

Lemma plain_lit str : plain (lit str).
Proof.
  induction str as [|a str IH]; [exact I|].
  change (lit (String a str)) with (Seq (Chr (chr_is a)) (lit str)).
  simpl. auto.
Qed.

Lemma matches_issn_shaped g c : issn_shaped g -> Matches issn_shape g c c.
Proof.
  intros (d1 & d2 & -> & L1 & L2 & D1 & D2).
  unfold issn_shape, times. cbn [cat fold_right].
  replace (d1 ++ 45 :: d2) with (d1 ++ T "-" ++ d2 ++ [])
    by (rewrite app_nil_r; reflexivity).
  repeat econstructor; auto; try lia; try apply matches_lit;
    intros h Hh; inversion Hh; lia.
Qed.

Lemma optional_colon (x : text) :
  Forall (fun c => chr_is ":" c = true) x -> (length x <= 1)%nat ->
  x = [] \/ x = T ":".
Proof.
  intros Hx Hl. destruct x as [|c [|d x]]; [auto| |simpl in Hl; lia].
  right. inversion Hx as [|? ? Hc _]; subst.
  unfold chr_is in Hc. apply N.eqb_eq in Hc. subst. reflexivity.
Qed.

(** X8. When the text holds, anywhere, an ISSN after the label ["ISSN"],
    an optional colon and white space, the extractor returns an ISSN that
    stands after such a label in the text: a bare number elsewhere, such
    as a range of years, is not taken for it. *)
Theorem labelled_issn_wins :
  forall pre colon ws g post : text,
    colon = [] \/ colon = T ":" ->
    Forall (fun x => is_space x = true) ws ->
    issn_shaped g ->
    exists pre' colon' ws' g' post' : text,
      pre ++ T "ISSN" ++ colon ++ ws ++ g ++ post =
        pre' ++ T "ISSN" ++ colon' ++ ws' ++ g' ++ post' /\
      (colon' = [] \/ colon' = T ":") /\
      Forall (fun x => is_space x = true) ws' /\
      issn_shaped g' /\
      extract_issn (pre ++ T "ISSN" ++ colon ++ ws ++ g ++ post) = g'.
Proof.
  intros pre colon ws g post Hcolon Hws Hg.
  assert (M : Matches (nth 0 issn_patterns Eps)
                (T "ISSN" ++ colon ++ ws ++ g ++ []) [] [(1%nat, g)]).
  { cbn [nth issn_patterns]. unfold opt_chr, star. cbn [cat fold_right].
    repeat econstructor; try apply matches_lit; try assumption; try lia.
    - destruct Hcolon as [-> | ->]; repeat constructor.
    - intros h Hh. inversion Hh; subst.
      destruct Hcolon as [-> | ->]; simpl; lia.
    - discriminate.
    - apply matches_issn_shaped. assumption. }
  assert (P : plain (nth 0 issn_patterns Eps)).
  { cbn [nth issn_patterns]. unfold opt_chr, star, issn_shape, times.
    simpl. repeat split; exact I. }
  pose proof (search_complete _ _ _ M P pre post) as Hfound.
  replace (pre ++ (T "ISSN" ++ colon ++ ws ++ g ++ []) ++ post)
    with (pre ++ T "ISSN" ++ colon ++ ws ++ g ++ post) in Hfound
    by (rewrite app_nil_r, <- !app_assoc; reflexivity).
  destruct (search (nth 0 issn_patterns Eps) _) as [m|] eqn:Hs;
    [clear Hfound|contradiction].
  destruct (search_sound_at _ _ _ Hs) as (pre' & w' & post' & Htext & M').
  cbn [nth issn_patterns] in M'. unfold opt_chr, star in M'.
  cbn [cat fold_right] in M'. inv_matches.
  match goal with
  | H : Matches issn_shape ?g' _ _ |- _ =>
      apply matches_issn_shape in H as [Hg' ->];
      match type of Htext with
      | _ = _ ++ (_ ++ ?c' ++ ?ws' ++ _ ++ _) ++ _ =>
          exists pre', c', ws', g', post'
      end
  end.
  split; [rewrite Htext, app_nil_r, <- !app_assoc; reflexivity|].
  split; [apply optional_colon; [assumption|]|].
  { match goal with H : forall h, Some 1%nat = Some h -> _ |- _ =>
      apply (H 1%nat eq_refl) end. }
  split; [assumption|]. split; [assumption|].
  unfold extract_issn.
  change issn_patterns with (nth 0 issn_patterns Eps :: tl issn_patterns).
  cbn [first_group1]. rewrite Hs. reflexivity.
Qed.

Lemma labelled_issn_wins_witness :
  exists pre' colon' ws' g' post' : text,
    T "Vol. 1999-2003 " ++ T "ISSN" ++ [] ++ T " " ++ T "0317-8471" ++ T "." =
      pre' ++ T "ISSN" ++ colon' ++ ws' ++ g' ++ post' /\
    (colon' = [] \/ colon' = T ":") /\
    Forall (fun x => is_space x = true) ws' /\
    issn_shaped g' /\
    extract_issn
      (T "Vol. 1999-2003 " ++ T "ISSN" ++ [] ++ T " " ++ T "0317-8471" ++ T ".")
    = g'.
Proof.
  apply (labelled_issn_wins (T "Vol. 1999-2003 ") [] (T " ") (T "0317-8471")
           (T ".")).
  - left. reflexivity.
  - repeat constructor.
  - exists (T "0317"), (T "8471"). repeat split; repeat constructor.
Defined.

(** ** The conference-name extractor *)

Lemma search_inv r :
  forall s m,
    search r s = Some m ->
    exists pre s0, s = pre ++ s0 /\ mtch r s0 [] (fun _ c => Some c) = Some m.
Proof.
  induction s as [|x s IH]; intros m H; simpl in H.
  - destruct (mtch r [] [] (fun _ c => Some c)) eqn:Hm; [|discriminate].
    inversion H; subst. exists [], []. auto.
  - destruct (mtch r (x :: s) [] (fun _ c => Some c)) eqn:Hm.
    + inversion H; subst. exists [], (x :: s). auto.
    + destruct (IH m H) as (pre & s0 & -> & Hm').
      exists (x :: pre), s0. auto.
Qed.

(** A lazy repetition stops at the first place where the rest of the
    pattern accepts. *)
Lemma rep_lazy_minimal {R : Type} p (k : text -> option R) res :
  forall s,
    rep false p 0 None s k = Some res ->
    exists w s',
      s = w ++ s' /\ Forall (fun x => p x = true) w /\ k s' = Some res /\
      forall w1 w2, w = w1 ++ w2 -> w2 <> [] -> k (w2 ++ s') = None.
Proof.
  induction s as [|c s IH]; intros H; simpl in H.
  - exists [], []. repeat split; auto.
    intros w1 w2 Hw. destruct w1, w2; try discriminate. contradiction.
  - assert (Hstop : k (c :: s) = Some res ->
              exists w s', c :: s = w ++ s' /\
                Forall (fun x => p x = true) w /\ k s' = Some res /\
                forall w1 w2, w = w1 ++ w2 -> w2 <> [] ->
                              k (w2 ++ s') = None).
    { intros Hk. exists [], (c :: s). repeat split; auto.
      intros w1 w2 Hw. destruct w1, w2; try discriminate. contradiction. }
    destruct (p c) eqn:Hp; simpl in H; [|apply Hstop; exact H].
    destruct (k (c :: s)) as [r|] eqn:Hk; [apply Hstop; exact H|].
    destruct (IH H) as (w & s' & -> & Hw & Hks & Hmin).
    exists (c :: w), s'. repeat split; auto.
    intros w1 w2 Hsplit Hne. destruct w1 as [|c1 w1]; simpl in Hsplit.
    + subst w2. exact Hk.
    + inversion Hsplit; subst. apply (Hmin w1 w2); auto.
Qed.

Lemma mtch_seq_eq {R : Type} r1 r2 s c (k : text -> caps -> option R) :
  mtch (Seq r1 r2) s c k = mtch r1 s c (fun s1 c1 => mtch r2 s1 c1 k).
Proof. reflexivity. Qed.

Lemma matches_groupless r w c c' :
  Matches r w c c' -> groupless r -> c' = c.
Proof.
  induction 1 as [c|p x c Hp|r1 r2 w1 w2 c c1 c2 _ IH1 _ IH2
                  |r1 r2 w c c' _ IH|r1 r2 w c c' _ IH
                  |greedy p lo hi w c Hw _ _|i r w c c' M IH|r c|c];
    simpl; intros Hg; auto; try contradiction.
  - destruct Hg as [G1 G2]. rewrite (IH2 G2). auto.
  - destruct Hg. auto.
  - destruct Hg. auto.
Qed.

Lemma groupless_lit str : groupless (lit str).
Proof.
  induction str as [|a str IH]; [exact I|].
  change (lit (String a str)) with (Seq (Chr (chr_is a)) (lit str)).
  simpl. auto.
Qed.

Lemma groupless_lit_nocase ind : groupless (lit_nocase ind).
Proof.
  induction ind as [|a ind IH]; [exact I|].
  change (lit_nocase (String a ind))
    with (Seq (Chr (nocase_is a)) (lit_nocase ind)).
  simpl. auto.
Qed.

(** The end of the conference pattern accepts a period or a comma. *)
Lemma conference_end_accepts x rest c :
  chr_in (T ".,") x = true ->
  mtch conference_end (x :: rest) c (fun _ c' => Some c') <> None.
Proof.
  intros Hx. unfold chr_in in Hx. simpl in Hx.
  apply orb_prop in Hx as [Hx|Hx];
    [|apply orb_prop in Hx as [Hx|Hx]; [|discriminate]];
    apply N.eqb_eq in Hx; subst x; simpl; discriminate.
Qed.

(** A match of the conference pattern: the first group is the indicator
    word followed by a run without period or comma. *)
Lemma conference_match ind title m :
  search (conference_pattern ind) title = Some m ->
  exists wl w,
    group m 1 = Some (wl ++ w) /\ Matches (lit_nocase ind) wl [] [] /\
    Forall (fun x => is_any x = true) w /\
    Forall (fun x => chr_in (T ".,") x = false) w.
Proof.
  intros Hs. apply search_inv in Hs as (pre & s0 & _ & Hm).
  change (conference_pattern ind)
    with (Seq (lazy_star is_any)
            (Seq (Group 1 (Seq (lit_nocase ind)
                             (Seq (lazy_star is_any) Eps)))
                 (Seq conference_end Eps))) in Hm.
  rewrite mtch_seq_eq in Hm.
  apply mtch_sound in Hm as (w0 & s1 & c1 & _ & M0 & Hm).
  apply matches_groupless in M0; [subst c1|exact I].
  rewrite mtch_seq_eq in Hm. cbn [mtch] in Hm.
  apply mtch_sound in Hm as (wl & sa & ca & -> & Ml & Hm).
  pose proof (matches_groupless _ _ _ _ Ml (groupless_lit_nocase ind)).
  subst ca. unfold lazy_star in Hm. cbn [mtch] in Hm.
  apply rep_lazy_minimal in Hm as (w & s' & -> & Hw & Hk & Hmin).
  rewrite (app_assoc wl w s'), take_captured in Hk.
  exists wl, w. split; [|split; [exact Ml|split; [exact Hw|]]].
  - apply mtch_sound in Hk as (wg & sg & cg & _ & Mg & Hk).
    inversion Hk; subst cg. unfold conference_end in Mg.
    apply matches_group_inv in Mg as (c1 & Mg & ->).
    apply matches_groupless in Mg; [subst c1; reflexivity|].
    simpl. repeat split; try exact I; apply groupless_lit.
  - apply List.Forall_forall. intros x Hx.
    destruct (chr_in (T ".,") x) eqn:Hdot; [exfalso|reflexivity].
    apply List.in_split in Hx as (w1 & w2 & ->).
    specialize (Hmin w1 (x :: w2) eq_refl ltac:(discriminate)).
    revert Hmin. apply conference_end_accepts. exact Hdot.
Qed.

Lemma matches_lit_nocase_spelled ind :
  forall w c c', Matches (lit_nocase ind) w c c' -> spelled ind w.
Proof.
  unfold spelled. induction ind as [|a ind IH]; intros w c c' H.
  - apply matches_eps_inv in H as [-> _]. constructor.
  - change (lit_nocase (String a ind))
      with (Seq (Chr (nocase_is a)) (lit_nocase ind)) in H.
    apply matches_seq_inv in H as (w1 & w2 & c1 & -> & H1 & H2).
    apply matches_chr_inv in H1 as (x & -> & Hx & ->).
    simpl. constructor; [exact Hx|]. eapply IH. exact H2.
Qed.

(** What a lower-case letter of a pattern matches when case is ignored. *)
Lemma nocase_is_cases a x :
  nocase_is a x = true ->
  x = N_of_ascii a \/ x = N_of_ascii a - 32 \/
  x = 0x130 \/ x = 0x131 \/ x = 0x212a \/ x = 0x17f.
Proof.
  unfold nocase_is, chr_in. simpl existsb. intros H.
  repeat (apply orb_prop in H as [H|H]);
    repeat match goal with
    | H : _ && _ = true |- _ => apply andb_prop in H as [_ H]
    | H : _ || _ = true |- _ => apply orb_prop in H as [H|H]
    end;
    try discriminate; apply N.eqb_eq in H; auto 7.
Qed.

Lemma nocase_letter_plain a x :
  lower_letter a -> nocase_is a x = true ->
  is_space x = false /\ name_char x = true.
Proof.
  unfold lower_letter. intros Ha H. apply nocase_is_cases in H.
  assert (Hr : 65 <= x <= 122 -> is_space x = false /\ name_char x = true).
  { intros Hx. split.
    - destruct (is_space x) eqn:Hs; [|reflexivity].
      unfold is_space, chr_in in Hs.
      apply List.existsb_exists in Hs as (k & Hin & Hk).
      apply N.eqb_eq in Hk. subst k. simpl in Hin.
      repeat (destruct Hin as [<-|Hin]; [lia|]). destruct Hin.
    - unfold name_char, chr_in. simpl.
      repeat (replace (x =? _) with false
                by (symmetry; apply N.eqb_neq; lia)).
      reflexivity. }
  destruct H as [->|[->|[->|[->|[->| ->]]]]];
    try (apply Hr; lia); split; reflexivity.
Qed.

Lemma lstrip_app_keep (a b : text) :
  match b with [] => False | c :: _ => is_space c = false end ->
  lstrip (a ++ b) = lstrip a ++ b.
Proof.
  intros Hb. induction a as [|c a IH]; simpl.
  - destruct b as [|d b]; [contradiction|]. simpl. rewrite Hb. reflexivity.
  - destruct (is_space c); [exact IH|reflexivity].
Qed.

Lemma lstrip_decomp (s : text) : exists sp, s = sp ++ lstrip s.
Proof.
  induction s as [|c s [sp IH]]; simpl; [exists []; reflexivity|].
  destruct (is_space c).
  - exists (c :: sp). simpl. f_equal. exact IH.
  - exists []. reflexivity.
Qed.

Lemma rstrip_prefix (w : text) : exists t, w = rstrip w ++ t.
Proof.
  unfold rstrip. destruct (lstrip_decomp (rev w)) as [sp H].
  exists (rev sp). rewrite <- rev_app_distr, <- H, rev_involutive.
  reflexivity.
Qed.

(** Stripping leaves a word that starts with letters as it is, up to the
    white space at its end. *)
Lemma strip_after_word (wl w : text) :
  wl <> [] -> Forall (fun x => is_space x = false) wl ->
  strip (wl ++ w) = wl ++ rstrip w.
Proof.
  intros Hne Hwl. unfold strip, rstrip.
  assert (H1 : lstrip (wl ++ w) = wl ++ w).
  { destruct wl as [|c wl]; [contradiction|].
    inversion Hwl; subst. simpl. rewrite H1. reflexivity. }
  rewrite H1, rev_app_distr, lstrip_app_keep.
  - rewrite rev_app_distr, rev_involutive. reflexivity.
  - assert (Hr : Forall (fun x => is_space x = false) (rev wl))
      by (apply List.Forall_rev; exact Hwl).
    destruct (rev wl) as [|d r] eqn:Hd.
    + apply (f_equal (@rev char)) in Hd. rewrite rev_involutive in Hd.
      simpl in Hd. contradiction.
    + inversion Hr; subst. assumption.
Qed.

Lemma conference_loop_cases title :
  forall indicators,
    conference_loop indicators title = [] \/
    exists indicator m,
      In indicator indicators /\
      search (conference_pattern indicator) title = Some m /\
      conference_loop indicators title = strip (group1 m).
Proof.
  induction indicators as [|ind rest IH]; simpl; [left; reflexivity|].
  destruct (search (conference_pattern ind) title) as [m|] eqn:Hs.
  - right. exists ind, m. auto.
  - destruct IH as [IH|(i & m & Hin & Hs' & IH)]; [left; exact IH|right].
    exists i, m. auto.
Qed.

Lemma conf_indicators_letters :
  Forall (fun indicator =>
            indicator <> EmptyString /\
            Forall lower_letter (list_ascii_of_string indicator))
         conf_indicators.
Proof.
  repeat constructor; try discriminate; unfold lower_letter; simpl; lia.
Qed.

Lemma spelled_letters indicator wl :
  Forall lower_letter (list_ascii_of_string indicator) ->
  spelled indicator wl ->
  Forall (fun x => is_space x = false) wl /\
  Forall (fun x => name_char x = true) wl.
Proof.
  unfold spelled. generalize (list_ascii_of_string indicator).
  intros l Hl H. induction H as [|a x l wl Hx _ IH]; [split; constructor|].
  inversion Hl; subst. destruct (IH ltac:(assumption)) as [I1 I2].
  destruct (nocase_letter_plain a x) as [S1 S2]; auto.
Qed.

Lemma name_char_of x :
  is_any x = true -> chr_in (T ".,") x = false -> name_char x = true.
Proof.
  unfold name_char, is_any, chr_in. change (T ".,") with [46; 44].
  cbn [existsb]. intros H1 H2. apply negb_true_iff in H1.
  apply orb_false_elim in H2 as [D1 D2].
  apply orb_false_elim in D2 as [D2 _]. rewrite H1, D1, D2. reflexivity.
Qed.

(** X9. When the venue is empty the conference name comes from the
    title: it is a run of the title that holds no period, no comma and no
    newline, and unless it is empty it starts with one of the indicator
    words, in whatever case the title writes it. *)
Theorem conference_name_from_title :
  forall venue title : value,
    truthy venue = false ->
    exists r : text,
      extract_conference_name venue title = VStr r /\
      Forall (fun x => name_char x = true) r /\
      occurs_in r (str_of title) /\
      (r = [] \/
       exists indicator wl w,
         In indicator conf_indicators /\ spelled indicator wl /\
         r = wl ++ w).
Proof.
  intros venue title Hv. unfold extract_conference_name. rewrite Hv.
  eexists. split; [reflexivity|].
  destruct (conference_loop_cases (str_of title) conf_indicators)
    as [->|(indicator & m & Hin & Hs & ->)].
  { split; [constructor|]. split; [|left; reflexivity].
    exists [], (str_of title). reflexivity. }
  destruct (conference_match _ _ _ Hs) as (wl & w & Hg & Ml & Hw & Hdot).
  apply matches_lit_nocase_spelled in Ml.
  pose proof conf_indicators_letters as Hall.
  rewrite List.Forall_forall in Hall.
  destruct (Hall indicator Hin) as [Hne Hletters].
  destruct (spelled_letters indicator wl Hletters Ml) as [Hsp Hname].
  assert (Hwl : wl <> []).
  { intros ->. unfold spelled in Ml. inversion Ml as [Hnil|].
    destruct indicator; [contradiction|discriminate]. }
  unfold group1. rewrite Hg, strip_after_word by assumption.
  destruct (rstrip_prefix w) as [t Ht].
  split; [|split].
  - apply Forall_app. split; [exact Hname|].
    assert (Hw' : Forall (fun x => name_char x = true) w).
    { rewrite List.Forall_forall in Hw, Hdot. apply List.Forall_forall.
      intros x Hx. apply name_char_of; auto. }
    rewrite Ht in Hw'. apply Forall_app in Hw' as [Hw' _]. exact Hw'.
  - apply (search_group_occurs _ _ _ 1%nat _ Hs) in Hg.
    destruct Hg as (pre & post & Ho). exists pre, (t ++ post).
    rewrite Ho, Ht at 1. rewrite <- !app_assoc. reflexivity.
  - right. exists indicator, wl, (rstrip w). auto.
Qed.

Lemma conference_name_from_title_witness :
  exists r : text,
    extract_conference_name (VStr [])
      (VStr (T "Proc. 3rd WORKSHOP on Types , Oslo")) = VStr r /\
    Forall (fun x => name_char x = true) r /\
    occurs_in r (str_of (VStr (T "Proc. 3rd WORKSHOP on Types , Oslo"))) /\
    (r = [] \/
     exists indicator wl w,
       In indicator conf_indicators /\ spelled indicator wl /\
       r = wl ++ w).
Proof.
  apply (conference_name_from_title (VStr [])
           (VStr (T "Proc. 3rd WORKSHOP on Types , Oslo"))).
  reflexivity.
Defined.

(** * Further properties of the assembler *)

Lemma polite_sleeps_app tr1 tr2 :
  polite_sleeps (tr1 ++ tr2) = (polite_sleeps tr1 + polite_sleeps tr2)%nat.
Proof.
  induction tr1 as [|[l|s|lo hi] tr1 IH]; simpl; auto.
Qed.

Section AssemblerFurther.

Context {W : Type} {src : Source W}.

(** The publication loop adds at most one row per publication, and one
    pause per row. *)
Lemma publication_loop_rows search_query author pubs :
  forall st : state W,
  exists st' rows events,
    publication_loop search_query author pubs st = (Ok tt, st') /\
    publications_data st' = publications_data st ++ rows /\
    trace st' = trace st ++ events /\
    (length rows <= length pubs)%nat /\
    polite_sleeps events = length rows /\
    backoffs events = [] /\ attempts_made events = [].
Proof.
  induction pubs as [|pub rest IH]; intros st.
  - exists st, [], []. simpl. rewrite !app_nil_r. repeat split; auto.
  - simpl. unfold bind at 1. rewrite publication_step_eq.
    destruct (fill_pub pub (world st)) as [[filled_pub|e] w'] eqn:Hf.
    + match goal with |- context [publication_loop _ _ rest ?s] =>
        destruct (IH s)
          as (st' & rows & events & Hl & Hp & Ht & Hn & Hs & Hb & Ha)
      end.
      simpl in Hp, Ht.
      exists st', (build_publication search_query author filled_pub :: rows),
        (Print (LProcessed (get (bib_of filled_pub) "title"))
         :: SleepUniform 2 5 :: events).
      rewrite Hl, Hp, Ht, <- !app_assoc. simpl.
      repeat split; auto; lia.
    + match goal with |- context [publication_loop _ _ rest ?s] =>
        destruct (IH s)
          as (st' & rows & events & Hl & Hp & Ht & Hn & Hs & Hb & Ha)
      end.
      simpl in Hp, Ht.
      exists st', rows, (Print (LPubError e) :: events).
      rewrite Hl, Hp, Ht, <- !app_assoc. simpl.
      repeat split; auto; lia.
Qed.

(** When every fetch succeeds the rows are the publications, in order. *)
Lemma publication_loop_all search_query author (enrich : Pub -> Pub) pubs :
  (forall p w, In p pubs -> exists w', fill_pub p w = (Ok (enrich p), w')) ->
  forall st : state W,
  exists st',
    publication_loop search_query author pubs st = (Ok tt, st') /\
    publications_data st' =
      publications_data st ++
      List.map (fun p => build_publication search_query author (enrich p))
               pubs.
Proof.
  induction pubs as [|pub rest IH]; intros Hall st.
  - exists st. simpl. rewrite app_nil_r. auto.
  - simpl. unfold bind at 1. rewrite publication_step_eq.
    destruct (Hall pub (world st) (or_introl eq_refl)) as (w' & ->).
    match goal with |- context [publication_loop _ _ rest ?s] =>
      destruct (IH (fun p w Hp => Hall p w (or_intror Hp)) s)
        as (st' & Hl & Hp)
    end.
    exists st'. rewrite Hl, Hp. simpl. rewrite <- app_assoc. auto.
Qed.

(** An attempt that finds an author runs the publication loop on the
    author's publications. *)
Lemma attempt_body_found search_query attempt max_retries (st : state W)
    it w1 a0 w2 a w3 pubs :
  search_author search_query (world st) = (Ok it, w1) ->
  next_author it w1 = (Ok a0, w2) ->
  fill_author a0 w2 = (Ok a, w3) ->
  author_publications a = Some pubs ->
  attempt_body search_query attempt max_retries st =
  publication_loop search_query a pubs
    (mkState w3 (publications_data st)
       (trace st ++ [Print (LAttempt (attempt + 1) max_retries)])).
Proof.
  intros Hs Hn Hf Hp.
  unfold attempt_body, bind, try_except, call, print, emit, publications_of,
    ret. cbn. rewrite Hs. cbn. rewrite Hn. cbn. rewrite Hf. cbn.
  rewrite Hp. cbn. reflexivity.
Qed.

(** An attempt that ends adds rows and events of the publication loop,
    one pause per row. *)
Lemma attempt_body_paced search_query attempt max_retries
    (st st' : state W) :
  attempt_body search_query attempt max_retries st = (Ok tt, st') ->
  exists rows events,
    publications_data st' = publications_data st ++ rows /\
    trace st' =
      trace st ++ Print (LAttempt (attempt + 1) max_retries) :: events /\
    polite_sleeps events = length rows /\
    backoffs events = [] /\ attempts_made events = [].
Proof.
  assert (Hno : exists rows events,
            publications_data st = publications_data st ++ rows /\
            (trace st ++ [Print (LAttempt (attempt + 1) max_retries)])
              ++ [Print LNoAuthor] =
              trace st ++ Print (LAttempt (attempt + 1) max_retries)
                :: events /\
            polite_sleeps events = length rows /\
            backoffs events = [] /\ attempts_made events = []).
  { exists [], [Print LNoAuthor].
    rewrite app_nil_r, <- app_assoc. repeat split. }
  unfold attempt_body, bind, try_except, call, print, emit, publications_of,
    ret, raise. cbn.
  destruct (search_author search_query (world st)) as [[it|e1] w1]; cbn;
    [|discriminate].
  destruct (next_author it w1) as [[a|e2] w2]; cbn.
  - destruct (fill_author a w2) as [[a'|e3] w3]; cbn.
    + destruct (author_publications a') as [pubs|]; cbn; [|discriminate].
      match goal with |- context [publication_loop _ _ pubs ?s] =>
        destruct (publication_loop_rows search_query a' pubs s)
          as (s' & rows & events & Hl & Hp & Ht & _ & Hs & Hb & Ha)
      end.
      rewrite Hl. intros H. inversion H; subst. simpl in Hp, Ht.
      exists rows, events. rewrite Hp, Ht, <- app_assoc. auto.
    + destruct (is_stop_iteration e3); simpl; [|discriminate].
      intros H. inversion H; subst. simpl. apply Hno.
  - destruct (is_stop_iteration e2); simpl; [|discriminate].
    intros H. inversion H; subst. simpl. apply Hno.
Qed.

(** The retry loop over the attempts [i], [i + 1], ... up to the last one:
    it makes the first [j] of them, backs off after each but the last it
    makes, and takes one pause per row it adds. *)
Lemma retry_loop_shape search_query max_retries :
  forall n i (st : state W),
    (i + n = Z.to_nat max_retries)%nat ->
    exists (j : nat) (st' : state W) rows,
      (j <= n)%nat /\ (1 <= n -> 1 <= j)%nat /\
      retry_loop search_query max_retries
        (List.map Z.of_nat (seq i n)) st = (Ok tt, st') /\
      publications_data st' = publications_data st ++ rows /\
      attempts_made (trace st') =
        attempts_made (trace st) ++
        List.map (fun a => a + 1)%Z (List.map Z.of_nat (seq i j)) /\
      backoffs (trace st') =
        backoffs (trace st) ++
        List.map (fun a => (a + 1) * 5)%Z
          (List.map Z.of_nat (seq i (j - 1))) /\
      polite_sleeps (trace st') =
        (polite_sleeps (trace st) + length rows)%nat.
Proof.
  induction n as [|n IH]; intros i st Hin.
  - exists 0%nat, st, []. simpl. rewrite !app_nil_r.
    repeat split; auto; lia.
  - cbn [seq List.map].
    destruct (attempt_body search_query (Z.of_nat i) max_retries st)
      as [[[]|e] st1] eqn:Ha.
    + rewrite (retry_loop_ended _ _ _ _ _ _ Ha).
      apply attempt_body_paced in Ha
        as (rows & events & Hp & Ht & Hs & Hb & Hm).
      exists 1%nat, st1, rows. rewrite Ht.
      rewrite attempts_made_app, backoffs_app, polite_sleeps_app. simpl.
      rewrite Hm, Hb, Hs, !app_nil_r. repeat split; auto; lia.
    + rewrite (retry_loop_raised _ _ _ _ _ _ _ Ha).
      apply attempt_body_raised in Ha as [Hp Ht].
      destruct (IH (S i)
                  (snd (attempt_failed (Z.of_nat i) max_retries e st1)))
        as (j & st' & rows & Hj & Hj1 & Hl & Hd & Hm & Hb & Hs); [lia|].
      exists (S j), st', rows. rewrite Hl, Hd, Hm, Hb, Hs.
      clear Hl Hd Hm Hb Hs. rewrite attempt_failed_eq.
      destruct (Z.of_nat i <? max_retries - 1)%Z eqn:Hlast;
        cbn [snd trace publications_data]; rewrite Ht, Hp;
        rewrite !attempts_made_app, !backoffs_app, !polite_sleeps_app;
        cbn [attempts_made backoffs polite_sleeps app];
        rewrite ?app_nil_r, <- ?app_assoc.
      * apply Z.ltb_lt in Hlast.
        assert (1 <= j)%nat by (apply Hj1; lia).
        destruct j as [|j]; [lia|].
        replace (S (S j) - 1)%nat with (S j) by lia.
        replace (S j - 1)%nat with j by lia.
        cbn [seq List.map app].
        repeat split; auto; try lia.
      * apply Z.ltb_ge in Hlast.
        assert (n = 0%nat) by lia. subst n.
        assert (j = 0%nat) by lia. subst j.
        cbn [seq List.map app Nat.sub].
        repeat split; auto; try lia.
Qed.

End AssemblerFurther.

Lemma range_nonpositive max_retries :
  (max_retries <= 0)%Z -> range max_retries = [].
Proof.
  intros H. unfold range. replace (Z.to_nat max_retries) with 0%nat by lia.
  reflexivity.
Qed.

(** X10. With [max_retries] zero or negative the assembler makes no
    attempt: it returns the empty list and leaves the source, the clock
    and the trace untouched. *)
Theorem no_attempt_without_retries :
  forall (W : Type) (src : Source W) (search_query : text) (max_retries : Z)
         (w : W),
    (max_retries <= 0)%Z ->
    scrape_scholar_data search_query max_retries w = (Ok [], init w).
Proof.
  intros W src search_query max_retries w H. unfold scrape_scholar_data.
  rewrite range_nonpositive by assumption. reflexivity.
Qed.

Lemma no_attempt_without_retries_witness :
  scrape_scholar_data demo_query 0 demo_world = (Ok [], init demo_world).
Proof.
  apply (no_attempt_without_retries Mock mock_source demo_query 0 demo_world).
  lia.
Defined.

(** X11. When the first attempt finds an author, the run is that one
    attempt, without back-off, and the output has at most one row per
    publication of the author; when every publication can be fetched the
    rows are the publications, one each, in the order the source lists
    them. *)
Theorem rows_follow_publications :
  forall (W : Type) (src : Source W) (search_query : text) (max_retries : Z)
         (w : W) (it : author_iter) (w1 : W) (a0 : Author) (w2 : W)
         (a : Author) (w3 : W) (pubs : list Pub),
    (0 < max_retries)%Z ->
    search_author search_query w = (Ok it, w1) ->
    next_author it w1 = (Ok a0, w2) ->
    fill_author a0 w2 = (Ok a, w3) ->
    author_publications a = Some pubs ->
    exists out st,
      scrape_scholar_data search_query max_retries w = (Ok out, st) /\
      (length out <= length pubs)%nat /\
      attempts_made (trace st) = [1%Z] /\ backoffs (trace st) = [] /\
      forall enrich : Pub -> Pub,
        (forall p w', In p pubs ->
                      exists w'', fill_pub p w' = (Ok (enrich p), w'')) ->
        out = List.map
                (fun p => build_publication search_query a (enrich p)) pubs.
Proof.
  intros W src search_query max_retries w it w1 a0 w2 a w3 pubs
    Hpos Hs Hn Hf Hp.
  pose proof (attempt_body_found search_query 0 max_retries (init w)
                it w1 a0 w2 a w3 pubs Hs Hn Hf Hp) as Hbody.
  simpl in Hbody.
  destruct (publication_loop_rows search_query a pubs
              (mkState w3 [] [Print (LAttempt 1 max_retries)]))
    as (st' & rows & events & Hl & Hd & Ht & Hlen & _ & Hb & Ha).
  simpl in Hd, Ht. change (0 + 1)%Z with 1%Z in Hbody. rewrite Hl in Hbody.
  exists rows, st'. unfold scrape_scholar_data.
  destruct (range_pos max_retries Hpos) as [rest ->].
  rewrite (retry_loop_ended _ _ _ _ _ _ Hbody), Hd.
  split; [reflexivity|]. split; [exact Hlen|].
  rewrite Ht. simpl. rewrite Ha, Hb. repeat split.
  intros enrich Hall.
  destruct (publication_loop_all search_query a enrich pubs Hall
              (mkState w3 [] [Print (LAttempt 1 max_retries)]))
    as (st'' & Hl' & Hd').
  rewrite Hl in Hl'. inversion Hl'; subst st''. rewrite Hd in Hd'.
  exact Hd'.
Qed.

Lemma rows_follow_publications_witness :
  exists out st,
    scrape_scholar_data demo_query default_max_retries
      (mkMock 0 (Some demo_author)) = (Ok out, st) /\
    (length out <= length [demo_pub; broken_pub; demo_pub])%nat /\
    attempts_made (trace st) = [1%Z] /\ backoffs (trace st) = [] /\
    forall enrich : Pub -> Pub,
      (forall (p : Pub) (w' : Mock),
          In p [demo_pub; broken_pub; demo_pub] ->
          exists w'' : Mock, fill_pub p w' = (Ok (enrich p), w'')) ->
      out = List.map
              (fun p => build_publication demo_query demo_author (enrich p))
              [demo_pub; broken_pub; demo_pub].
Proof.
  apply (rows_follow_publications Mock mock_source demo_query
           default_max_retries (mkMock 0 (Some demo_author))
           (Some demo_author) (mkMock 0 (Some demo_author)) demo_author
           (mkMock 0 (Some demo_author)) demo_author
           (mkMock 0 (Some demo_author)) [demo_pub; broken_pub; demo_pub]).
  - reflexivity.
  - reflexivity.
  - reflexivity.
  - reflexivity.
  - reflexivity.
Defined.


(** X13. The assembler pauses (between 2 and 5 seconds) once for every
    row of the output, and not for a publication it skipped or an attempt
    that failed. *)
Theorem one_pause_per_row :
  forall (W : Type) (src : Source W) (search_query : text) (max_retries : Z)
         (w : W),
    exists (out : list publication) (st : state W),
      scrape_scholar_data search_query max_retries w = (Ok out, st) /\
      polite_sleeps (trace st) = length out.
Proof.
  intros W src search_query max_retries w.
  destruct (retry_loop_shape search_query max_retries
              (Z.to_nat max_retries) 0 (init w) eq_refl)
    as (j & st' & rows & Hj & Hj1 & Hl & Hd & Hm & Hb & Hs).
  exists (publications_data st'), st'.
  unfold scrape_scholar_data, range. rewrite Hl. split; [reflexivity|].
  rewrite Hs, Hd. reflexivity.
Qed.

(** X14. Every row of the output has the same nineteen keys, in the same
    order: the rows are uniform and the sheet has exactly these columns. *)
Theorem rows_have_the_columns :
  forall (W : Type) (src : Source W) (search_query : text) (max_retries : Z)
         (w : W) (out : list publication) (st : state W) (row : publication),
    scrape_scholar_data search_query max_retries w = (Ok out, st) ->
    In row out ->
    List.map fst row = column_names /\ length row = 19%nat.
Proof.
  intros W src search_query max_retries w out st row Hs Hin.
  destruct (scrape_scholar_data_built _ _ _ _ _ _ Hs Hin)
    as (author & pub & filled_pub & w1 & w2 & _ & ->).
  unfold build_publication.
  destruct (extract_page_numbers _) as [[start_page end_page] page_count].
  split; reflexivity.
Qed.

Lemma rows_have_the_columns_witness :
  List.map fst demo_row = column_names /\ length demo_row = 19%nat.
Proof.
  pose (run := scrape_scholar_data demo_query default_max_retries demo_world).
  apply (rows_have_the_columns Mock mock_source demo_query
           default_max_retries demo_world (publications_data (snd run))
           (snd run) demo_row).
  - vm_compute. reflexivity.
  - vm_compute. left. reflexivity.
Defined.


(** * How the extractors meet *)







(** ** The ISBN extractor, further *)

Lemma digit_hyphen_plain c :
  is_digit_hyphen c = true -> is_space c = false /\ chr_is ":" c = false.
Proof.
  unfold is_digit_hyphen. intros H. apply orb_prop in H as [H|H].
  - split; [apply digit_not_space; exact H|].
    unfold chr_is. apply N.eqb_neq. intros ->.
    vm_compute in H. discriminate.
  - apply N.eqb_eq in H. subst c. split; reflexivity.
Qed.

(** The [ISBN-13] pattern finds seventeen digits and hyphens written
    right after its label. *)
Lemma isbn13_label_found (colon ws g rest : text) :
  colon = [] \/ colon = T ":" ->
  Forall (fun x => is_space x = true) ws ->
  length g = 17%nat ->
  Forall (fun x => is_digit_hyphen x = true) g ->
  search (nth 0 isbn_patterns Eps) (T "ISBN-13" ++ colon ++ ws ++ g ++ rest) =
    Some [(1%nat, g)].
Proof.
  intros Hcolon Hws Hlen Hg. apply search_here.
  cbn [nth isbn_patterns]. unfold opt_chr, star, times.
  cbn [cat fold_right mtch]. rewrite mtch_lit.
  assert (Hhead : exists c g', g = c :: g' /\ is_digit_hyphen c = true).
  { destruct g as [|c g']; [discriminate|]. inversion Hg; subst. eauto. }
  destruct Hhead as (c & g' & Hc & Hdh).
  destruct (digit_hyphen_plain c Hdh) as [Hnsp Hncolon].
  take_run colon.
  { destruct Hcolon as [-> | ->]; repeat constructor. }
  { destruct Hcolon as [-> | ->]; intros h Hh; inversion Hh; simpl; lia. }
  { destruct Hcolon as [-> | ->]; [right|left; reflexivity].
    destruct ws as [|d ws]; simpl.
    - rewrite Hc. simpl. exact Hncolon.
    - inversion Hws; subst. unfold chr_is. apply N.eqb_neq. intros ->.
      match goal with H : is_space _ = true |- _ =>
        vm_compute in H; discriminate H end. }
  take_run ws.
  { right. rewrite Hc. simpl. exact Hnsp. }
  take_run g.
  { left. rewrite Hlen. reflexivity. }
  rewrite take_captured. reflexivity.
Qed.

(** X18. Seventeen digits and hyphens that hold thirteen digits, written
    after the label ["ISBN-13"], an optional colon and any white space at
    the start of the text, are returned with the hyphens taken out,
    whatever follows. *)
Theorem isbn13_label_round_trip :
  forall colon ws g rest : text,
    colon = [] \/ colon = T ":" ->
    Forall (fun x => is_space x = true) ws ->
    length g = 17%nat ->
    Forall (fun x => is_digit_hyphen x = true) g ->
    length (strip_separators g) = 13%nat ->
    extract_isbn (T "ISBN-13" ++ colon ++ ws ++ g ++ rest) =
      strip_separators g.
Proof.
  intros colon ws g rest Hcolon Hws Hlen Hg H13. unfold extract_isbn.
  change isbn_patterns with (nth 0 isbn_patterns Eps :: tl isbn_patterns).
  cbn [isbn_loop]. rewrite isbn13_label_found by assumption.
  change (group1 [(1%nat, g)]) with g.
  unfold isbn_length_ok. rewrite H13. reflexivity.
Qed.

Lemma isbn13_label_round_trip_witness :
  extract_isbn
    (T "ISBN-13" ++ T ":" ++ T " " ++ T "978-0-123-45678-9" ++ T " (pbk)") =
  strip_separators (T "978-0-123-45678-9").
Proof.
  apply (isbn13_label_round_trip (T ":") (T " ") (T "978-0-123-45678-9")
           (T " (pbk)")).
  - right. reflexivity.
  - repeat constructor.
  - reflexivity.
  - repeat constructor.
  - reflexivity.
Defined.
